(** * Key manager of subnet-cli: [internal/key/key.go]

    A shallow embedding of the package [key]: the private-key codec
    ([encodePrivateKey], [decodePrivateKey]), the key-file loader ([Load],
    [readASCII], [checkKeyFileEnd]), the constructor [New] and the UTXO
    selection [Spends].

    Go values are modelled as follows.
    - [byte] is [ascii] (eight bits); a Go [string] and a [[]byte] are both
      [list ascii], so [string(kb)] and [[]byte(k)] are the identity.
    - [uint64] and [uint32] are [Z], with the wrap-around of [+] written out.
    - a function returning [(T, error)] returns [result T].
    - the packages of avalanchego the file imports ([formatting], [crypto],
      [secp256k1fx], [avax]) are interfaces: type classes whose operations
      the functions below call, with their contracts as separate classes of
      laws.  The module [CB58] gives the checksummed base-58 encoding itself
      (SHA-256 included) and is shown to meet the contract of [formatting];
      with it the functions run on concrete keys and files. *)

From Stdlib Require Import Ascii String.
From Stdlib Require Import List ZArith NArith Lia Bool Arith.
From Stdlib Require Import Permutation Sorted.
Import ListNotations.

Local Open Scope Z_scope.

(** ** Go base types *)

Notation byte := ascii (only parsing).
Notation gostring := (list ascii) (only parsing).
Notation bytes := (list ascii) (only parsing).

Definition str (s : string) : gostring := list_ascii_of_string s.

Definition byte_val (b : byte) : Z := Z.of_N (N_of_ascii b).
Definition byte_of (z : Z) : byte := ascii_of_N (Z.to_N (z mod 256)).

Definition byte_eqb (a b : byte) : bool := Ascii.eqb a b.

Definition uint64_mod : Z := 2 ^ 64.
Definition add64 (a b : Z) : Z := (a + b) mod uint64_mod.
Definition is_uint64 (a : Z) : Prop := 0 <= a < uint64_mod.

(** ** Errors *)

Inductive error :=
| ErrInvalidType
| ErrInvalidPrivateKey
| ErrInvalidPrivateKeyLen
| ErrInvalidPrivateKeyEnding
| ErrInvalidPrivateKeyEncoding
| io_EOF
| hex_InvalidByteError (b : byte)
| hex_ErrLength
| ErrExternal (what : string).

Inductive result (A : Type) :=
| Ok (a : A)
| Err (e : error).
Arguments Ok {A} a.
Arguments Err {A} e.

Definition bind {A B} (r : result A) (k : A -> result B) : result B :=
  match r with
  | Ok a => k a
  | Err e => Err e
  end.

Notation "'do' x <- r ; k" := (bind r (fun x => k))
  (at level 10, x name, r at level 100, k at level 200).


(** ** [strings]: HasPrefix, Replace *)

Fixpoint HasPrefix (s prefix : gostring) : bool :=
  match prefix, s with
  | [], _ => true
  | _ :: _, [] => false
  | p :: prefix', c :: s' => byte_eqb p c && HasPrefix s' prefix'
  end.

(** [cut s old] splits [s] around the first occurrence of [old]. *)
Fixpoint cut (s old : gostring) : option (gostring * gostring) :=
  if HasPrefix s old then Some ([], skipn (length old) s)
  else match s with
       | [] => None
       | c :: s' =>
           match cut s' old with
           | Some (before, after) => Some (c :: before, after)
           | None => None
           end
       end.

(** [strings.Replace(s, old, new, n)] for a non-empty [old]: the first [n]
    non-overlapping occurrences are replaced, all of them when [n < 0].
    (With an empty [old] Go inserts [new] between runes; the package never
    passes one.) *)
Fixpoint Replace_from (fuel : nat) (s old new : gostring) (n : Z) : gostring :=
  match fuel with
  | O => s
  | S fuel' =>
      if n =? 0 then s
      else match cut s old with
           | None => s
           | Some (before, after) =>
               before ++ new ++ Replace_from fuel' after old new (n - 1)
           end
  end.

Definition Replace (s old new : gostring) (n : Z) : gostring :=
  Replace_from (S (length s)) s old new n.

(** ** [encoding/hex] *)

Definition hextable : gostring := str "0123456789abcdef".

Definition hexdigit (v : Z) : byte := nth (Z.to_nat v) hextable "0"%char.

Definition fromHexChar (c : byte) : option Z :=
  let v := byte_val c in
  if (48 <=? v) && (v <=? 57) then Some (v - 48)
  else if (97 <=? v) && (v <=? 102) then Some (v - 97 + 10)
  else if (65 <=? v) && (v <=? 70) then Some (v - 65 + 10)
  else None.

Definition isHexChar (c : byte) : bool :=
  match fromHexChar c with Some _ => true | None => false end.

Fixpoint hex_EncodeToString (src : bytes) : gostring :=
  match src with
  | [] => []
  | b :: src' =>
      hexdigit (Z.shiftr (byte_val b) 4)
        :: hexdigit (Z.land (byte_val b) 15)
        :: hex_EncodeToString src'
  end.

(** [hex.DecodeString]: pairs are decoded left to right; the first invalid
    character is reported; a dangling last character is checked before
    [ErrLength] is returned. *)
Fixpoint hex_DecodeString (s : gostring) : result bytes :=
  match s with
  | [] => Ok []
  | [p] =>
      match fromHexChar p with
      | None => Err (hex_InvalidByteError p)
      | Some _ => Err hex_ErrLength
      end
  | p :: q :: s' =>
      match fromHexChar p with
      | None => Err (hex_InvalidByteError p)
      | Some a =>
          match fromHexChar q with
          | None => Err (hex_InvalidByteError q)
          | Some b =>
              do rest <- hex_DecodeString s';
              Ok (byte_of (Z.lor (Z.shiftl a 4) b) :: rest)
          end
      end
  end.

(** ** [io.ByteReader] over an in-memory buffer

    [bufio.NewReader(bytes.NewBuffer(kb))] is the list of bytes not yet
    read.  [ReadByte] returns [(0, io.EOF)] at the end. *)

Notation reader := (list ascii) (only parsing).

Definition ReadByte (r : reader) : result byte * reader :=
  match r with
  | [] => (Err io_EOF, [])
  | b :: r' => (Ok b, r')
  end.

Definition zero_byte : byte := "000"%char.

(** ** readASCII (key.go, lines 271-284)

    The recursion is on the part of [buf] not yet written, [n] is the loop
    counter.  The result is the count, the error, the buffer after the call
    and the reader after the call. *)
Fixpoint readASCII_from (n : nat) (buf : bytes) (r : reader)
  : (nat * option error) * bytes * reader :=
  match buf with
  | [] => ((n, None), [], r)
  | old :: buf' =>
      match ReadByte r with
      | (Err _, r') => ((n, None), zero_byte :: buf', r')
      | (Ok b, r') =>
          if byte_val b <? 33 then ((n, None), b :: buf', r')
          else
            let '(res, filled, r'') := readASCII_from (S n) buf' r' in
            (res, b :: filled, r'')
      end
  end.

Definition readASCII (buf : bytes) (r : reader) := readASCII_from 0 buf r.

(** ** checkKeyFileEnd (key.go, lines 286-303) *)

Definition fileEndLimit : nat := 1.

Definition isLineEnd (b : byte) : bool :=
  (byte_val b =? 10) || (byte_val b =? 13).

Fixpoint checkKeyFileEnd_from (idx : nat) (r : reader) : option error :=
  match r with
  | [] => None
  | b :: r' =>
      if negb (isLineEnd b) then Some ErrInvalidPrivateKeyEnding
      else if (fileEndLimit <? idx)%nat then Some ErrInvalidPrivateKeyLen
      else checkKeyFileEnd_from (S idx) r'
  end.

Definition checkKeyFileEnd (r : reader) : option error :=
  checkKeyFileEnd_from 0 r.

(** ** [bytes]: Equal, Compare *)

Fixpoint bytes_Equal (a b : bytes) : bool :=
  match a, b with
  | [], [] => true
  | x :: a', y :: b' => byte_eqb x y && bytes_Equal a' b'
  | _, _ => false
  end.

Fixpoint bytes_Compare (a b : bytes) : comparison :=
  match a, b with
  | [], [] => Eq
  | [], _ :: _ => Lt
  | _ :: _, [] => Gt
  | x :: a', y :: b' =>
      match byte_val x ?= byte_val y with
      | Eq => bytes_Compare a' b'
      | c => c
      end
  end.

(** ** The imported packages, as interfaces *)

Inductive Encoding := CB58 | Hex.

(** [formatting]: the checksummed text encoding and the address format. *)
Class Formatting := {
  EncodeWithChecksum : Encoding -> bytes -> result gostring;
  Decode : Encoding -> gostring -> result bytes;
  FormatAddress : gostring -> gostring -> bytes -> result gostring
}.

(** [crypto]: [PrivateKey] is the interface value a factory returns,
    [as_SECP256K1R] the type assertion to the concrete secp256k1 key type,
    [PublicKeyAddress pk] is [pk.PublicKey().Address().Bytes()]. *)
Class Crypto := {
  PrivateKeySECP256K1R : Type;
  PrivateKey : Type;
  as_SECP256K1R : PrivateKey -> option PrivateKeySECP256K1R;
  Bytes : PrivateKeySECP256K1R -> bytes;
  ToPrivateKey : bytes -> result PrivateKey;
  PublicKeyAddress : PrivateKeySECP256K1R -> bytes
}.

(** [secp256k1fx] and the [avax.TransferableIn] interface: [Output] is what
    a UTXO carries in [Out], [Verifiable] what [Keychain.Spend] returns,
    [as_TransferableIn] the type assertion [inputf.(avax.TransferableIn)]. *)
Class Fx `{Crypto} := {
  Keychain : Type;
  NewKeychain : Keychain;
  Keychain_Add : Keychain -> PrivateKeySECP256K1R -> Keychain;
  Output : Type;
  Verifiable : Type;
  TransferableIn : Type;
  Keychain_Spend : Keychain -> Output -> Z -> result Verifiable;
  as_TransferableIn : Verifiable -> option TransferableIn;
  Amount : TransferableIn -> Z
}.

(** ** [avax] data *)

Record UTXOID := { TxID : bytes; OutputIndex : Z }.
Record Asset := { AssetID : bytes }.

Section AvaxData.
Context {C : Crypto} {X : Fx}.

Record UTXO := {
  UTXO_UTXOID : UTXOID;
  UTXO_Asset : Asset;
  Out : Output
}.

Record TransferableInput := {
  In_UTXOID : UTXOID;
  In_Asset : Asset;
  In : TransferableIn
}.
End AvaxData.

(** The order of [avax.SortTransferableInputs]: transaction id first, output
    index second. *)
Definition UTXOID_Less (i j : UTXOID) : bool :=
  match bytes_Compare (TxID i) (TxID j) with
  | Lt => true
  | Eq => OutputIndex i <? OutputIndex j
  | Gt => false
  end.

Class Avax `{Fx} := {
  SortTransferableInputs : list TransferableInput -> list TransferableInput
}.

(** ** Contracts of the imported packages *)

(** CB58 with checksum: decoding undoes encoding, a key-sized payload is
    always encodable, and the text is non-empty and drawn from the base-58
    alphabet, which has no dash. *)
Class FormattingLaws `{Formatting} : Prop := {
  Decode_EncodeWithChecksum :
    forall b s, EncodeWithChecksum CB58 b = Ok s -> Decode CB58 s = Ok b;
  EncodeWithChecksum_key :
    forall b, (length b <= 32)%nat -> exists s, EncodeWithChecksum CB58 b = Ok s;
  EncodeWithChecksum_alphabet :
    forall b s, EncodeWithChecksum CB58 b = Ok s -> ~ List.In "-"%char s;
  EncodeWithChecksum_nonempty :
    forall b s, EncodeWithChecksum CB58 b = Ok s -> s <> []
}.

(** The key factory rebuilds a key from its own bytes, and accepts any 32
    bytes. *)
Class CryptoLaws `{Crypto} : Prop := {
  ToPrivateKey_Bytes :
    forall k, exists p k',
      ToPrivateKey (Bytes k) = Ok p /\ as_SECP256K1R p = Some k' /\
      Bytes k' = Bytes k;
  ToPrivateKey_32 :
    forall b, length b = 32%nat -> exists p k,
      ToPrivateKey b = Ok p /\ as_SECP256K1R p = Some k /\ Bytes k = b
}.

(** [Amount()] is a [uint64]. *)
Class FxLaws `{Fx} : Prop := {
  Amount_uint64 : forall i, is_uint64 (Amount i)
}.

(** [sort.Sort] rearranges its argument so that no element is [Less] than
    its predecessor. *)
Definition inputs_ordered `{Fx} (a b : TransferableInput) : Prop :=
  UTXOID_Less (In_UTXOID b) (In_UTXOID a) = false.

Class AvaxLaws `{Avax} : Prop := {
  Sort_Permutation : forall l, Permutation (SortTransferableInputs l) l;
  Sort_Sorted : forall l, Sorted inputs_ordered (SortTransferableInputs l)
}.

(** ** [constants] of avalanchego used by [getHRP] *)

Module constants.
Definition MainnetID : Z := 1.
Definition FujiID : Z := 5.
Definition LocalID : Z := 12345.
Definition MainnetHRP : gostring := str "avax".
Definition FujiHRP : gostring := str "fuji".
Definition LocalHRP : gostring := str "local".
Definition FallbackHRP : gostring := str "custom".
End constants.

(** ** The package [key] *)

Section Key.
Context {F : Formatting} {C : Crypto} {X : Fx} {A : Avax}.

Definition privKeyEncPfx : gostring := str "PrivateKey-".
Definition privKeySize : nat := 64.
Definition rawEwoqPk : gostring :=
  str "ewoqjP7PxY4yr3iLTpLisriqt94hdyDFNgchSxGGztUrTXtNN".
Definition EwoqPrivateKey : gostring := str "PrivateKey-" ++ rawEwoqPk.
Definition fsModeWrite : Z := 384.

(** *** Options (key.go, lines 340-389) *)

Record Op := {
  Op_privKey : option PrivateKeySECP256K1R;
  Op_privKeyEncoded : gostring;
  Op_time : Z;
  Op_targetAmount : Z;
  Op_feeDeduct : Z
}.

(** [&Op{}]: every field at its zero value. *)
Definition Op_zero : Op :=
  {| Op_privKey := None; Op_privKeyEncoded := [];
     Op_time := 0; Op_targetAmount := 0; Op_feeDeduct := 0 |}.

Definition OpOption := Op -> Op.

Definition applyOpts (op : Op) (opts : list OpOption) : Op :=
  fold_left (fun o opt => opt o) opts op.

Definition WithPrivateKey (privKey : PrivateKeySECP256K1R) : OpOption :=
  fun op =>
    {| Op_privKey := Some privKey;
       Op_privKeyEncoded := Op_privKeyEncoded op;
       Op_time := Op_time op;
       Op_targetAmount := Op_targetAmount op;
       Op_feeDeduct := Op_feeDeduct op |}.

Definition WithPrivateKeyEncoded (privKey : gostring) : OpOption :=
  fun op =>
    {| Op_privKey := Op_privKey op;
       Op_privKeyEncoded := privKey;
       Op_time := Op_time op;
       Op_targetAmount := Op_targetAmount op;
       Op_feeDeduct := Op_feeDeduct op |}.

Definition WithTime (t : Z) : OpOption :=
  fun op =>
    {| Op_privKey := Op_privKey op;
       Op_privKeyEncoded := Op_privKeyEncoded op;
       Op_time := t;
       Op_targetAmount := Op_targetAmount op;
       Op_feeDeduct := Op_feeDeduct op |}.

Definition WithTargetAmount (ta : Z) : OpOption :=
  fun op =>
    {| Op_privKey := Op_privKey op;
       Op_privKeyEncoded := Op_privKeyEncoded op;
       Op_time := Op_time op;
       Op_targetAmount := ta;
       Op_feeDeduct := Op_feeDeduct op |}.

Definition WithFeeDeduct (fee : Z) : OpOption :=
  fun op =>
    {| Op_privKey := Op_privKey op;
       Op_privKeyEncoded := Op_privKeyEncoded op;
       Op_time := Op_time op;
       Op_targetAmount := Op_targetAmount op;
       Op_feeDeduct := fee |}.

(** *** The manager (key.go, lines 59-69) *)

Record smanager := {
  hrp : gostring;
  privKey : PrivateKeySECP256K1R;
  privKeyRaw : bytes;
  privKeyEncoded : gostring;
  pAddr : gostring;
  keyChain : Keychain
}.

(** *** encodePrivateKey, decodePrivateKey (key.go, lines 305-329) *)

Definition encodePrivateKey (pk : PrivateKeySECP256K1R) : result gostring :=
  let privKeyRaw := Bytes pk in
  do enc <- EncodeWithChecksum CB58 privKeyRaw;
  Ok (privKeyEncPfx ++ enc).

Definition decodePrivateKey (enc : gostring) : result PrivateKeySECP256K1R :=
  let rawPk := Replace enc privKeyEncPfx [] 1 in
  do skBytes <- Decode CB58 rawPk;
  do rpk <- ToPrivateKey skBytes;
  match as_SECP256K1R rpk with
  | Some privKey => Ok privKey
  | None => Err ErrInvalidType
  end.

(** *** getHRP, updateAddr (key.go, lines 144-155 and 331-338) *)

Definition getHRP (networkID : Z) : gostring :=
  if networkID =? constants.LocalID then constants.LocalHRP
  else if networkID =? constants.FujiID then constants.FujiHRP
  else if networkID =? constants.MainnetID then constants.MainnetHRP
  else constants.FallbackHRP.

Definition updateAddr (m : smanager) : result smanager :=
  let pubBytes := PublicKeyAddress (privKey m) in
  do a <- FormatAddress (str "P") (hrp m) pubBytes;
  Ok {| hrp := hrp m; privKey := privKey m; privKeyRaw := privKeyRaw m;
        privKeyEncoded := privKeyEncoded m; pAddr := a;
        keyChain := keyChain m |}.

(** *** New (key.go, lines 81-142)

    [fresh] is the outcome of [keyFactory.NewPrivateKey()], used only when
    the options supply no key.  The argument [name] is unused, as in the
    source. *)
Definition New (networkID : Z) (name : gostring) (opts : list OpOption)
           (fresh : result PrivateKey) : result smanager :=
  let ret := applyOpts Op_zero opts in
  do given <-
    (if (0 <? length (Op_privKeyEncoded ret))%nat then
       do decoded <- decodePrivateKey (Op_privKeyEncoded ret);
       match Op_privKey ret with
       | Some k =>
           if negb (bytes_Equal (Bytes k) (Bytes decoded))
           then Err ErrInvalidPrivateKey
           else Ok (Some decoded)
       | None => Ok (Some decoded)
       end
     else Ok (Op_privKey ret));
  do privKey <-
    (match given with
     | Some k => Ok k
     | None =>
         do rpk <- fresh;
         match as_SECP256K1R rpk with
         | Some k => Ok k
         | None => Err ErrInvalidType
         end
     end);
  do privKeyEncoded <- encodePrivateKey privKey;
  if negb (bytes_Equal (Op_privKeyEncoded ret) [])
     && negb (bytes_Equal (Op_privKeyEncoded ret) privKeyEncoded)
  then Err ErrInvalidPrivateKeyEncoding
  else
    let keyChain := Keychain_Add NewKeychain privKey in
    updateAddr
      {| hrp := getHRP networkID; privKey := privKey;
         privKeyRaw := Bytes privKey; privKeyEncoded := privKeyEncoded;
         pAddr := []; keyChain := keyChain |}.

(** *** Accessors and Save (key.go, lines 157-178) *)

Definition Key (m : smanager) := privKey m.
Definition Raw (m : smanager) := privKeyRaw m.
Definition Encode (m : smanager) := privKeyEncoded m.
Definition P (m : smanager) := pAddr m.

(** [Save] performs one [ioutil.WriteFile]; the call is the result. *)
Record WriteFile := { wf_path : gostring; wf_data : bytes; wf_perm : Z }.

Definition Save (m : smanager) (p : gostring) : WriteFile :=
  let k := hex_EncodeToString (privKeyRaw m) in
  {| wf_path := p; wf_data := k; wf_perm := fsModeWrite |}.

(** *** spend, Spends (key.go, lines 180-225) *)

Definition spend (m : smanager) (output : UTXO) (time : Z)
  : result TransferableIn :=
  do inputf <- Keychain_Spend (keyChain m) (Out output) time;
  match as_TransferableIn inputf with
  | Some input => Ok input
  | None => Err ErrInvalidType
  end.

(** The [for ... range outputs] loop; [totalBalanceToSpend] is a [uint64],
    so is [ret.targetAmount+ret.feeDeduct]. *)
Fixpoint Spends_loop (m : smanager) (ret : Op) (outputs : list UTXO)
         (totalBalanceToSpend : Z) (inputs : list TransferableInput)
  : Z * list TransferableInput :=
  match outputs with
  | [] => (totalBalanceToSpend, inputs)
  | out :: rest =>
      match spend m out (Op_time ret) with
      | Err _ => Spends_loop m ret rest totalBalanceToSpend inputs
      | Ok input =>
          let total := add64 totalBalanceToSpend (Amount input) in
          let inputs' :=
            inputs ++ [ {| In_UTXOID := UTXO_UTXOID out;
                           In_Asset := UTXO_Asset out;
                           In := input |} ] in
          if (Op_targetAmount ret >? 0)
             && (total >? add64 (Op_targetAmount ret) (Op_feeDeduct ret))
          then (total, inputs')
          else Spends_loop m ret rest total inputs'
      end
  end.

Definition Spends (m : smanager) (outputs : list UTXO) (opts : list OpOption)
  : Z * list TransferableInput :=
  let ret := applyOpts Op_zero opts in
  let '(totalBalanceToSpend, inputs) := Spends_loop m ret outputs 0 [] in
  (totalBalanceToSpend, SortTransferableInputs inputs).

(** *** Load (key.go, lines 229-269)

    [file] is the outcome of [ioutil.ReadFile(keyPath)]. *)
Definition Load (networkID : Z) (keyPath : gostring) (file : result bytes)
           (fresh : result PrivateKey) : result smanager :=
  do kb <- file;
  match New networkID keyPath [WithPrivateKeyEncoded kb] fresh with
  | Ok k => Ok k
  | Err _ =>
      let r := kb in
      let buf := repeat zero_byte privKeySize in
      let '((n, err), buf, r) := readASCII buf r in
      match err with
      | Some e => Err e
      | None =>
          if negb (n =? length buf)%nat then Err ErrInvalidPrivateKeyLen
          else
            match checkKeyFileEnd r with
            | Some e => Err e
            | None =>
                do skBytes <- hex_DecodeString buf;
                do rpk <- ToPrivateKey skBytes;
                match as_SECP256K1R rpk with
                | None => Err ErrInvalidType
                | Some privKey =>
                    New networkID keyPath [WithPrivateKey privKey] fresh
                end
            end
      end
  end.

End Key.

(** ** Notions used to state the selection properties *)

Section Selection.
Context {F : Formatting} {C : Crypto} {X : Fx} {A : Avax}.

(** The input [Spends] builds from a UTXO and the result of [spend]. *)
Definition mkInput (out : UTXO) (input : TransferableIn) : TransferableInput :=
  {| In_UTXOID := UTXO_UTXOID out; In_Asset := UTXO_Asset out; In := input |}.

(** The inputs of all the outputs the manager can spend at [time], in the
    order of the outputs. *)
Definition spendable_inputs (m : smanager) (time : Z) (outputs : list UTXO)
  : list TransferableInput :=
  flat_map (fun out => match spend m out time with
                       | Ok input => [mkInput out input]
                       | Err _ => []
                       end) outputs.

Definition amounts (inputs : list TransferableInput) : list Z :=
  map (fun i => Amount (In i)) inputs.

(** The sum of a list of integers, without wrap-around. *)
Definition sum (l : list Z) : Z := fold_right Z.add 0 l.

(** [sublist l1 l2]: [l1] is [l2] with some elements left out. *)
Inductive sublist {T : Type} : list T -> list T -> Prop :=
| sublist_nil : sublist [] []
| sublist_skip x l1 l2 : sublist l1 l2 -> sublist l1 (x :: l2)
| sublist_keep x l1 l2 : sublist l1 l2 -> sublist (x :: l1) (x :: l2).

(** [inp] is the input of the candidate [out]: it carries the identifier
    and the asset of [out] and what [spend] returns for it. *)
Definition input_of (m : smanager) (time : Z) (out : UTXO)
           (inp : TransferableInput) : Prop :=
  exists input, spend m out time = Ok input /\ inp = mkInput out input.

(** The test that ends the loop of [Spends]. *)
Definition target_exceeded (ret : Op) (total : Z) : bool :=
  (Op_targetAmount ret >? 0)
  && (total >? add64 (Op_targetAmount ret) (Op_feeDeduct ret)).
End Selection.

(** ** Notions used to state the properties of the readers *)

(** The bytes [readASCII] does not stop at: ['!'] and above. *)
Definition printable (c : byte) : Prop := 33 <= byte_val c.

Definition printableb (c : byte) : bool := negb (byte_val c <? 33).

Fixpoint takeWhile {T : Type} (f : T -> bool) (l : list T) : list T :=
  match l with
  | [] => []
  | x :: l' => if f x then x :: takeWhile f l' else []
  end.

(** ** The second half of [decodePrivateKey], named for the statements below *)

Section DecodeStages.
Context {F : Formatting} {C : Crypto}.

(** What [decodePrivateKey] does with [rawPk], the string that
    [strings.Replace] leaves (key.go, lines 316-328). *)
Definition decodeRawPk (rawPk : gostring) : result PrivateKeySECP256K1R :=
  do skBytes <- Decode CB58 rawPk;
  do rpk <- ToPrivateKey skBytes;
  match as_SECP256K1R rpk with
  | Some privKey => Ok privKey
  | None => Err ErrInvalidType
  end.

End DecodeStages.

(** ** The second stage of [Load], named for the statements below *)

Section LoadStages.
Context {F : Formatting} {C : Crypto} {X : Fx} {A : Avax}.

(** The fallback of [Load]: what is done once the contents have failed to
    load as an encoded key. *)
Definition Load_hex (networkID : Z) (keyPath : gostring) (kb : bytes)
           (fresh : result PrivateKey) : result smanager :=
  let '((n, err), buf, r) := readASCII (repeat zero_byte privKeySize) kb in
  match err with
  | Some e => Err e
  | None =>
      if negb (n =? length buf)%nat then Err ErrInvalidPrivateKeyLen
      else
        match checkKeyFileEnd r with
        | Some e => Err e
        | None =>
            do skBytes <- hex_DecodeString buf;
            do rpk <- ToPrivateKey skBytes;
            match as_SECP256K1R rpk with
            | None => Err ErrInvalidType
            | Some privKey =>
                New networkID keyPath [WithPrivateKey privKey] fresh
            end
        end
  end.

End LoadStages.

(** ** SHA-256, base 58 and the checksummed encoding

    What [formatting.EncodeWithChecksum(formatting.CB58, b)] and
    [formatting.Decode(formatting.CB58, s)] compute: the payload is [b]
    followed by the last four bytes of its SHA-256 digest, written in base
    58 over the Bitcoin alphabet, with one ['1'] for each leading zero
    byte. *)

Module CB58.

Definition add32 (a b : Z) : Z := (a + b) mod 2 ^ 32.

Definition rotr (n x : Z) : Z :=
  Z.lor (Z.shiftr x n) (Z.shiftl x (32 - n)) mod 2 ^ 32.

Definition Ch (x y z : Z) : Z :=
  Z.lxor (Z.land x y) (Z.land (Z.lxor x (2 ^ 32 - 1)) z).

Definition Maj (x y z : Z) : Z :=
  Z.lxor (Z.lxor (Z.land x y) (Z.land x z)) (Z.land y z).

Definition Sigma0 (x : Z) : Z := Z.lxor (Z.lxor (rotr 2 x) (rotr 13 x)) (rotr 22 x).
Definition Sigma1 (x : Z) : Z := Z.lxor (Z.lxor (rotr 6 x) (rotr 11 x)) (rotr 25 x).
Definition sigma0 (x : Z) : Z := Z.lxor (Z.lxor (rotr 7 x) (rotr 18 x)) (Z.shiftr x 3).
Definition sigma1 (x : Z) : Z := Z.lxor (Z.lxor (rotr 17 x) (rotr 19 x)) (Z.shiftr x 10).

(** The round constants and the initial state are the first 32 bits of the
    fractional parts of the cube roots of the first 64 primes, and of the
    square roots of the first 8. *)
Definition is_prime (n : nat) : bool :=
  (1 <? n)%nat && forallb (fun d => negb (n mod d =? 0)%nat) (seq 2 (n - 2)).

Definition first_primes (count : nat) : list Z :=
  map Z.of_nat (firstn count (filter is_prime (seq 2 400))).

(** The integer cube root of [x], found bit by bit from bit [i - 1] down. *)
Fixpoint cube_root_from (i : nat) (x r : Z) : Z :=
  match i with
  | O => r
  | S i' =>
      let c := r + 2 ^ Z.of_nat i' in
      cube_root_from i' x (if c * c * c <=? x then c else r)
  end.

Definition K : list Z :=
  Eval vm_compute in
    map (fun p => cube_root_from 40 (p * 2 ^ 96) 0 mod 2 ^ 32) (first_primes 64).

Definition H0_words : list Z :=
  Eval vm_compute in
    map (fun p => Z.sqrt (p * 2 ^ 64) mod 2 ^ 32) (first_primes 8).

Record state := {
  va : Z; vb : Z; vc : Z; vd : Z; ve : Z; vf : Z; vg : Z; vh : Z
}.

Definition H0 : state :=
  {| va := nth 0 H0_words 0; vb := nth 1 H0_words 0; vc := nth 2 H0_words 0;
     vd := nth 3 H0_words 0; ve := nth 4 H0_words 0; vf := nth 5 H0_words 0;
     vg := nth 6 H0_words 0; vh := nth 7 H0_words 0 |}.

(** The message schedule: [w] holds the words computed so far, the most
    recent first. *)
Fixpoint schedule (n : nat) (w : list Z) : list Z :=
  match n with
  | O => w
  | S n' =>
      let w2 := nth 1 w 0 in
      let w7 := nth 6 w 0 in
      let w15 := nth 14 w 0 in
      let w16 := nth 15 w 0 in
      schedule n' (add32 (add32 (sigma1 w2) w7) (add32 (sigma0 w15) w16) :: w)
  end.

Definition round (s : state) (kw : Z * Z) : state :=
  let t1 := add32 (add32 (add32 (vh s) (Sigma1 (ve s)))
                         (add32 (Ch (ve s) (vf s) (vg s)) (fst kw))) (snd kw) in
  let t2 := add32 (Sigma0 (va s)) (Maj (va s) (vb s) (vc s)) in
  {| va := add32 t1 t2; vb := va s; vc := vb s; vd := vc s;
     ve := add32 (vd s) t1; vf := ve s; vg := vf s; vh := vg s |}.

Fixpoint words (b : bytes) : list Z :=
  match b with
  | b0 :: b1 :: b2 :: b3 :: rest =>
      (byte_val b0 * 2 ^ 24 + byte_val b1 * 2 ^ 16 + byte_val b2 * 2 ^ 8
       + byte_val b3) :: words rest
  | _ => []
  end.

Definition compress (s : state) (block : bytes) : state :=
  let w := rev (schedule 48 (rev (words block))) in
  let t := fold_left round (combine K w) s in
  {| va := add32 (va s) (va t); vb := add32 (vb s) (vb t);
     vc := add32 (vc s) (vc t); vd := add32 (vd s) (vd t);
     ve := add32 (ve s) (ve t); vf := add32 (vf s) (vf t);
     vg := add32 (vg s) (vg t); vh := add32 (vh s) (vh t) |}.

Fixpoint blocks (n : nat) (s : state) (msg : bytes) : state :=
  match n with
  | O => s
  | S n' => blocks n' (compress s (firstn 64 msg)) (skipn 64 msg)
  end.

Definition be_bytes (n : nat) (x : Z) : bytes :=
  map (fun i => byte_of (Z.shiftr x (8 * Z.of_nat i))) (rev (seq 0 n)).

Definition pad (msg : bytes) : bytes :=
  let l := length msg in
  let zeros := ((119 - l mod 64) mod 64)%nat in
  msg ++ byte_of 128 :: repeat zero_byte zeros ++ be_bytes 8 (8 * Z.of_nat l).

Definition state_bytes (s : state) : bytes :=
  be_bytes 4 (va s) ++ be_bytes 4 (vb s) ++ be_bytes 4 (vc s) ++ be_bytes 4 (vd s)
  ++ be_bytes 4 (ve s) ++ be_bytes 4 (vf s) ++ be_bytes 4 (vg s) ++ be_bytes 4 (vh s).

Definition sha256 (msg : bytes) : bytes :=
  let p := pad msg in
  state_bytes (blocks (length p / 64) H0 p).

(** [hashing.Checksum(b, 4)]: the last four bytes of the digest. *)
Definition checksumLen : nat := 4.
Definition Checksum (b : bytes) : bytes := skipn (32 - checksumLen) (sha256 b).

(** *** Base 58 *)

Definition alphabet : gostring :=
  str "123456789ABCDEFGHJKLMNPQRSTUVWXYZabcdefghijkmnopqrstuvwxyz".

Definition digit_char (d : Z) : byte := nth (Z.to_nat d) alphabet "1"%char.

Fixpoint index_from (i : Z) (c : byte) (l : gostring) : option Z :=
  match l with
  | [] => None
  | x :: l' => if byte_eqb x c then Some i else index_from (i + 1) c l'
  end.

Definition char_digit (c : byte) : option Z := index_from 0 c alphabet.

(** The number a list of digits stands for, most significant digit first. *)
Definition number (base : Z) (ds : list Z) : Z :=
  fold_left (fun a d => a * base + d) ds 0.

(** The digits of [x], most significant first, none for 0; [fuel] bounds
    their number. *)
Fixpoint digits_from (fuel : nat) (base x : Z) (acc : list Z) : list Z :=
  match fuel with
  | O => acc
  | S fuel' =>
      if x <=? 0 then acc
      else digits_from fuel' base (x / base) (x mod base :: acc)
  end.

Fixpoint leading {T : Type} (f : T -> bool) (l : list T) : nat :=
  match l with
  | [] => O
  | x :: l' => if f x then S (leading f l') else O
  end.

Definition is_zero (b : byte) : bool := byte_val b =? 0.
Definition is_one (c : byte) : bool := byte_eqb c "1"%char.

(** [base58.Encode]: each byte gives at most two digits. *)
Definition base58_Encode (b : bytes) : gostring :=
  let zeros := leading is_zero b in
  let x := number 256 (map byte_val b) in
  repeat "1"%char zeros ++ map digit_char (digits_from (2 * length b) 58 x []).

Fixpoint parse (s : gostring) : option (list Z) :=
  match s with
  | [] => Some []
  | c :: s' =>
      match char_digit c, parse s' with
      | Some d, Some ds => Some (d :: ds)
      | _, _ => None
      end
  end.

(** [base58.Decode]: each character gives at most one byte. *)
Definition base58_Decode (s : gostring) : result bytes :=
  match parse s with
  | None => Err (ErrExternal "invalid base58 digit")
  | Some ds =>
      let ones := leading is_one s in
      let x := number 58 ds in
      Ok (repeat zero_byte ones ++ map byte_of (digits_from (length s) 256 x []))
  end.

Definition maxCB58EncodeSize : nat := 1024.

Definition EncodeWithChecksum (b : bytes) : result gostring :=
  if (maxCB58EncodeSize <? length b)%nat
  then Err (ErrExternal "CB58 only supports up to 1024 bytes")
  else Ok (base58_Encode (b ++ Checksum b)).

Definition Decode (s : gostring) : result bytes :=
  match s with
  | [] => Ok []
  | _ =>
      do decoded <- base58_Decode s;
      if (length decoded <? checksumLen)%nat
      then Err (ErrExternal "input string is smaller than the checksum size")
      else
        let raw := firstn (length decoded - checksumLen) decoded in
        let sum := skipn (length decoded - checksumLen) decoded in
        if bytes_Equal sum (Checksum raw) then Ok raw
        else Err (ErrExternal "invalid input checksum")
  end.

End CB58.

(** ** An executable instance of the interfaces

    Small stand-ins for the imported packages, on which the functions of the
    package run on concrete inputs.  The key factory keeps the bytes it is
    given and takes the first 20 of them as address; the text encoding is
    the CB58 of the section above; the address format is a plain
    concatenation; the keychain follows [secp256k1fx]: an output is
    spendable at [time] when its lock time has passed and the keychain
    holds [Threshold] of its owners; an amount that is not a [uint64]
    counts as 0. *)

Module Ref.

Inductive key := SECP (b : bytes) | Foreign.

#[export] Instance crypto : Crypto := {|
  PrivateKeySECP256K1R := bytes;
  PrivateKey := key;
  as_SECP256K1R := fun p => match p with SECP b => Some b | Foreign => None end;
  Bytes := fun k => k;
  ToPrivateKey := fun b => Ok (SECP b);
  PublicKeyAddress := fun k => firstn 20 k
|}.

(** The hexadecimal encoding of [formatting]: ["0x"], then the digits of
    the payload and its checksum. *)
Definition hex_encode (b : bytes) : result gostring :=
  Ok (str "0x" ++ hex_EncodeToString (b ++ CB58.Checksum b)).

Definition hex_decode (s : gostring) : result bytes :=
  match s with
  | [] => Ok []
  | _ =>
      if negb (HasPrefix s (str "0x"))
      then Err (ErrExternal "hex string missing '0x' prefix")
      else
        do decoded <- hex_DecodeString (skipn 2 s);
        if (length decoded <? CB58.checksumLen)%nat
        then Err (ErrExternal "input string is smaller than the checksum size")
        else
          let raw := firstn (length decoded - CB58.checksumLen) decoded in
          let sum := skipn (length decoded - CB58.checksumLen) decoded in
          if bytes_Equal sum (CB58.Checksum raw) then Ok raw
          else Err (ErrExternal "invalid input checksum")
  end.

#[export] Instance formatting : Formatting := {|
  EncodeWithChecksum := fun encoding b =>
    match encoding with
    | CB58 => CB58.EncodeWithChecksum b
    | Hex => hex_encode b
    end;
  Decode := fun encoding s =>
    match encoding with
    | CB58 => CB58.Decode s
    | Hex => hex_decode s
    end;
  FormatAddress := fun chain hrp addr =>
    Ok (chain ++ str "-" ++ hrp ++ str "1" ++ hex_EncodeToString addr)
|}.

Inductive output :=
| TransferOutput (Amt Locktime Threshold : Z) (Addrs : list bytes)
| MintOutput (Locktime Threshold : Z) (Addrs : list bytes).

Inductive input :=
| TransferInput (Amt : Z) (SigIndices : list Z)
| Input (SigIndices : list Z).

Definition holds (kc : list bytes) (addr : bytes) : bool :=
  existsb (fun k => bytes_Equal (firstn 20 k) addr) kc.

Fixpoint Match_from (kc : list bytes) (addrs : list bytes) (i : Z)
         (threshold : Z) (sigs : list Z) : list Z :=
  match addrs with
  | [] => sigs
  | a :: addrs' =>
      if Z.of_nat (length sigs) <? threshold then
        Match_from kc addrs' (i + 1) threshold
                   (if holds kc a then sigs ++ [i] else sigs)
      else sigs
  end.

Definition Match (kc : list bytes) (locktime threshold : Z)
           (addrs : list bytes) (time : Z) : option (list Z) :=
  if time <? locktime then None
  else
    let sigs := Match_from kc addrs 0 threshold [] in
    if Z.of_nat (length sigs) =? threshold then Some sigs else None.

Definition Spend (kc : list bytes) (out : output) (time : Z) : result input :=
  match out with
  | TransferOutput amt lt th addrs =>
      match Match kc lt th addrs time with
      | Some sigs => Ok (TransferInput amt sigs)
      | None => Err (ErrExternal "unable to spend this UTXO")
      end
  | MintOutput lt th addrs =>
      match Match kc lt th addrs time with
      | Some sigs => Ok (Input sigs)
      | None => Err (ErrExternal "unable to spend this UTXO")
      end
  end.

(** [a] is a [uint64]: not negative and of at most 64 bits. *)
Definition fits64 (a : Z) : bool := (0 <=? a) && (Z.log2 a <? 64).

#[export] Instance fx : Fx := {|
  Keychain := list bytes;
  NewKeychain := [];
  Keychain_Add := fun kc k => kc ++ [k];
  Output := output;
  Verifiable := input;
  TransferableIn := Z * list Z;
  Keychain_Spend := Spend;
  as_TransferableIn := fun v =>
    match v with
    | TransferInput amt sigs => Some (amt, sigs)
    | Input _ => None
    end;
  Amount := fun i => if fits64 (fst i) then fst i else 0
|}.

Fixpoint insert (x : TransferableInput) (l : list TransferableInput) :=
  match l with
  | [] => [x]
  | y :: l' =>
      if UTXOID_Less (In_UTXOID x) (In_UTXOID y) then x :: l
      else y :: insert x l'
  end.

Definition sort (l : list TransferableInput) : list TransferableInput :=
  fold_right insert [] l.

#[export] Instance avax : Avax := {| SortTransferableInputs := sort |}.

End Ref.

(** * Properties *)

(** ** Bytes and strings *)

Lemma byte_eqb_eq (a b : byte) : byte_eqb a b = true <-> a = b.
Proof. apply Ascii.eqb_eq. Qed.

Lemma byte_eqb_refl (a : byte) : byte_eqb a a = true.
Proof. apply Ascii.eqb_refl. Qed.

Lemma bytes_Equal_eq (a b : bytes) : bytes_Equal a b = true <-> a = b.
Proof.
  revert b; induction a as [|x a IH]; intros [|y b]; simpl;
    try (split; [discriminate|discriminate]); try tauto.
  rewrite andb_true_iff, byte_eqb_eq, IH.
  split; [intros [-> ->]; reflexivity | intros E; inversion E; auto].
Qed.

Lemma bytes_Equal_refl (a : bytes) : bytes_Equal a a = true.
Proof. apply bytes_Equal_eq; reflexivity. Qed.

Lemma bytes_Equal_neq (a b : bytes) : bytes_Equal a b = false <-> a <> b.
Proof.
  rewrite <- bytes_Equal_eq. destruct (bytes_Equal a b); split; congruence.
Qed.

Lemma HasPrefix_app (p s : gostring) : HasPrefix (p ++ s) p = true.
Proof.
  induction p as [|c p IH]; simpl.
  - destruct s; reflexivity.
  - now rewrite byte_eqb_refl, IH.
Qed.

Lemma HasPrefix_split (s p : gostring) :
  HasPrefix s p = true -> s = p ++ skipn (length p) s.
Proof.
  revert s; induction p as [|c p IH]; intros s Hp; simpl.
  - reflexivity.
  - destruct s as [|d s]; simpl in Hp; [discriminate|].
    apply andb_true_iff in Hp as [E Hp]. apply byte_eqb_eq in E; subst d.
    simpl. f_equal. now apply IH.
Qed.

Lemma HasPrefix_nil (s : gostring) : HasPrefix s [] = true.
Proof. destruct s; reflexivity. Qed.

Lemma cut_unfold (s old : gostring) :
  cut s old =
  if HasPrefix s old then Some ([], skipn (length old) s)
  else match s with
       | [] => None
       | c :: s' =>
           match cut s' old with
           | Some (before, after) => Some (c :: before, after)
           | None => None
           end
       end.
Proof. destruct s; reflexivity. Qed.

Lemma cut_prefix (p s : gostring) : cut (p ++ s) p = Some ([], s).
Proof.
  rewrite cut_unfold, HasPrefix_app.
  now rewrite skipn_app, skipn_all, Nat.sub_diag.
Qed.

(** What [cut] finds is an occurrence, and the first one. *)
Lemma cut_Some (s old before after : gostring) :
  cut s old = Some (before, after) -> s = before ++ old ++ after.
Proof.
  revert before after; induction s as [|c s IH]; intros before after;
    rewrite cut_unfold.
  - destruct (HasPrefix [] old) eqn:Hp; [|discriminate].
    intros E; inversion E; subst. now apply HasPrefix_split in Hp.
  - destruct (HasPrefix (c :: s) old) eqn:Hp.
    + intros E; inversion E; subst. now apply HasPrefix_split in Hp.
    + destruct (cut s old) as [[b a]|] eqn:Hc; [|discriminate].
      intros E; inversion E; subst. simpl. f_equal. now apply IH.
Qed.

Lemma cut_None_absent (s old : gostring) :
  cut s old = None -> forall before after, s <> before ++ old ++ after.
Proof.
  induction s as [|c s IH]; rewrite cut_unfold.
  - destruct (HasPrefix [] old) eqn:Hp; [discriminate|].
    intros _ before after E. symmetry in E.
    apply app_eq_nil in E as [-> E]. apply app_eq_nil in E as [-> ->].
    discriminate.
  - destruct (HasPrefix (c :: s) old) eqn:Hp; [discriminate|].
    destruct (cut s old) as [[b a]|] eqn:Hc; [discriminate|].
    intros _ [|d before] after E; simpl in E.
    + rewrite E, HasPrefix_app in Hp. discriminate.
    + inversion E; subst. eapply IH; eauto.
Qed.

(** No occurrence starts before the one [cut] finds. *)
Lemma cut_first (s old before after : gostring) :
  cut s old = Some (before, after) ->
  forall b1 a1, s = b1 ++ old ++ a1 -> (length before <= length b1)%nat.
Proof.
  revert before after; induction s as [|c s IH]; intros before after;
    rewrite cut_unfold.
  - destruct (HasPrefix [] old); [|discriminate].
    intros E; inversion E; subst. intros; simpl; lia.
  - destruct (HasPrefix (c :: s) old) eqn:Hp.
    + intros E; inversion E; subst. intros; simpl; lia.
    + destruct (cut s old) as [[b a]|] eqn:Hc; [|discriminate].
      intros E; inversion E; subst. intros [|d b1] a1 Hs; simpl in Hs.
      * rewrite Hs, HasPrefix_app in Hp. discriminate.
      * inversion Hs; subst. simpl.
        specialize (IH b after eq_refl b1 a1 eq_refl). lia.
Qed.

Lemma app_same_length {T} (l1 l2 r1 r2 : list T) :
  length l1 = length l2 -> l1 ++ r1 = l2 ++ r2 -> l1 = l2 /\ r1 = r2.
Proof.
  revert l2; induction l1 as [|x l1 IH]; intros [|y l2] Hl E;
    try discriminate; simpl in *.
  - auto.
  - inversion E; subst. destruct (IH l2) as [-> ->]; auto.
Qed.

(** An occurrence that no other one precedes is the one [cut] finds. *)
Lemma cut_at (before old after : gostring) :
  (forall b1 a1, before ++ old ++ after = b1 ++ old ++ a1 ->
                 (length before <= length b1)%nat) ->
  cut (before ++ old ++ after) old = Some (before, after).
Proof.
  intros H. destruct (cut (before ++ old ++ after) old) as [[b a]|] eqn:Hc.
  - pose proof (cut_Some _ _ _ _ Hc) as Hs.
    pose proof (cut_first _ _ _ _ Hc before after eq_refl) as H1.
    pose proof (H b a Hs) as H2.
    destruct (app_same_length b before (old ++ a) (old ++ after)) as [-> E];
      [lia | now symmetry |].
    now apply app_inv_head in E as ->.
  - exfalso. exact (cut_None_absent _ _ Hc before after eq_refl).
Qed.

Lemma cut_None_char (s old : gostring) (c : byte) :
  List.In c old -> ~ List.In c s -> cut s old = None.
Proof.
  intros Hin Hs. destruct (cut s old) as [[b a]|] eqn:Hc; [|reflexivity].
  apply cut_Some in Hc. exfalso. apply Hs. rewrite Hc.
  apply in_or_app. right. apply in_or_app. now left.
Qed.

Lemma Replace_from_zero (fuel : nat) (s old new : gostring) :
  Replace_from fuel s old new 0 = s.
Proof. destruct fuel; reflexivity. Qed.

Lemma Replace_first (s old new before after : gostring) :
  cut s old = Some (before, after) ->
  Replace s old new 1 = before ++ new ++ after.
Proof.
  intros Hc. unfold Replace. simpl. rewrite Hc.
  now rewrite Replace_from_zero.
Qed.

Lemma Replace_absent (s old new : gostring) (n : Z) :
  cut s old = None -> Replace s old new n = s.
Proof.
  intros Hc. unfold Replace. simpl. rewrite Hc. now destruct (n =? 0).
Qed.

Lemma Replace_prefix (p s : gostring) : Replace (p ++ s) p [] 1 = s.
Proof. now rewrite (Replace_first _ _ _ _ _ (cut_prefix p s)). Qed.

(** ** Hexadecimal *)

Lemma hex_byte (b : byte) :
  fromHexChar (hexdigit (Z.shiftr (byte_val b) 4)) = Some (Z.shiftr (byte_val b) 4)
  /\ fromHexChar (hexdigit (Z.land (byte_val b) 15)) = Some (Z.land (byte_val b) 15)
  /\ byte_of (Z.lor (Z.shiftl (Z.shiftr (byte_val b) 4) 4) (Z.land (byte_val b) 15)) = b.
Proof.
  destruct b as [[] [] [] [] [] [] [] []]; vm_compute; repeat split.
Qed.

Lemma hex_DecodeString_EncodeToString (b : bytes) :
  hex_DecodeString (hex_EncodeToString b) = Ok b.
Proof.
  induction b as [|x b IH]; [reflexivity|].
  destruct (hex_byte x) as (H1 & H2 & H3).
  cbn [hex_EncodeToString hex_DecodeString].
  rewrite H1, H2, IH. cbn [bind]. now rewrite H3.
Qed.

Lemma hex_EncodeToString_length (b : bytes) :
  length (hex_EncodeToString b) = (2 * length b)%nat.
Proof. induction b; simpl; lia. Qed.

Lemma hexdigit_isHexChar (b : byte) :
  isHexChar (hexdigit (Z.shiftr (byte_val b) 4)) = true
  /\ isHexChar (hexdigit (Z.land (byte_val b) 15)) = true.
Proof.
  unfold isHexChar. destruct (hex_byte b) as (-> & -> & _). auto.
Qed.

Lemma hex_EncodeToString_isHexChar (b : bytes) :
  Forall (fun c => isHexChar c = true) (hex_EncodeToString b).
Proof.
  induction b as [|x b IH]; simpl; [constructor|].
  destruct (hexdigit_isHexChar x). repeat constructor; auto.
Qed.

Lemma isHexChar_printable (c : byte) : isHexChar c = true -> 33 <= byte_val c.
Proof.
  unfold isHexChar, fromHexChar.
  destruct (48 <=? byte_val c) eqn:E1; simpl.
  - lia.
  - destruct ((97 <=? byte_val c) && (byte_val c <=? 102)) eqn:E2; [lia|].
    destruct ((65 <=? byte_val c) && (byte_val c <=? 70)) eqn:E3; [lia|].
    discriminate.
Qed.

Lemma isHexChar_not_dash (c : byte) : isHexChar c = true -> c <> "-"%char.
Proof. intros Hc ->. vm_compute in Hc. discriminate. Qed.

Lemma isHexChar_not_P (c : byte) : isHexChar c = true -> c <> "P"%char.
Proof. intros Hc ->. vm_compute in Hc. discriminate. Qed.

Lemma list_ind2 {A} (P : list A -> Prop) :
  P [] -> (forall a, P [a]) -> (forall a b l, P l -> P (a :: b :: l)) ->
  forall l, P l.
Proof.
  intros H0 H1 H2.
  assert (H : forall l, P l /\ forall a, P (a :: l)).
  { induction l as [|x l [IH1 IH2]]; split; auto. }
  intros l; apply H.
Qed.

Lemma hex_DecodeString_valid (s : gostring) :
  Forall (fun c => isHexChar c = true) s -> Nat.even (length s) = true ->
  exists b, hex_DecodeString s = Ok b /\ (2 * length b = length s)%nat.
Proof.
  induction s as [| a | a b s IH] using list_ind2; intros Hs Hl.
  - exists []; auto.
  - discriminate.
  - inversion Hs as [|? ? Ha Hs']; subst. inversion Hs' as [|? ? Hb Hs'']; subst.
    destruct (IH Hs'') as (r & Hr & Hlen); [exact Hl|].
    unfold isHexChar in Ha, Hb.
    cbn [hex_DecodeString].
    destruct (fromHexChar a) as [va|]; [|discriminate].
    destruct (fromHexChar b) as [vb|]; [|discriminate].
    rewrite Hr. cbn [bind]. eexists; split; [reflexivity|]. simpl. lia.
Qed.


(** ** readASCII *)

Lemma readASCII_from_full (buf : bytes) :
  forall n pre rest,
    length pre = length buf -> Forall printable pre ->
    readASCII_from n buf (pre ++ rest) = ((n + length buf, None)%nat, pre, rest).
Proof.
  induction buf as [|old buf IH]; intros n [|c pre] rest Hl Hp;
    simpl in Hl; try discriminate.
  - simpl. now rewrite Nat.add_0_r.
  - inversion Hp as [|? ? Hc Hp']; subst. unfold printable in Hc.
    simpl. destruct (byte_val c <? 33) eqn:E; [lia|].
    rewrite IH by (auto; lia). f_equal. f_equal. f_equal. lia.
Qed.

(** The scan never reports an error, and a full count means that the reader
    held [length buf] printable bytes. *)
Lemma readASCII_from_count (buf : bytes) :
  forall n r, 
    snd (fst (fst (readASCII_from n buf r))) = None /\
    (n <= fst (fst (fst (readASCII_from n buf r))) <= n + length buf)%nat /\
    (fst (fst (fst (readASCII_from n buf r))) = (n + length buf)%nat ->
     exists pre rest, r = pre ++ rest /\ length pre = length buf /\
                      Forall printable pre).
Proof.
  induction buf as [|old buf IH]; intros n r.
  - simpl. repeat split; try lia. intros _. exists [], r. auto.
  - simpl. destruct r as [|b r]; simpl.
    + repeat split; try lia.
    + destruct (byte_val b <? 33) eqn:E; simpl.
      * repeat split; try lia.
      * specialize (IH (S n) r).
        destruct (readASCII_from (S n) buf r) as [[[n' e] filled] r''].
        simpl in *. destruct IH as (He & Hn & Hfull).
        repeat split; try lia; auto.
        intros Hn'. destruct Hfull as (pre & rest & -> & Hl & Hp); [lia|].
        exists (b :: pre), rest. repeat split; simpl; auto.
        constructor; auto. unfold printable. lia.
Qed.

(** ** checkKeyFileEnd *)

Lemma checkKeyFileEnd_from_other (idx : nat) (pre : reader) (c : byte) (post : reader) :
  Forall (fun b => isLineEnd b = true) pre -> (idx + length pre <= 2)%nat ->
  isLineEnd c = false ->
  checkKeyFileEnd_from idx (pre ++ c :: post) = Some ErrInvalidPrivateKeyEnding.
Proof.
  revert idx; induction pre as [|b pre IH]; intros idx Hp Hl Hc; simpl.
  - now rewrite Hc.
  - inversion Hp as [|? ? Hb Hp']; subst. rewrite Hb. simpl in *.
    destruct (fileEndLimit <? idx)%nat eqn:E.
    + apply Nat.ltb_lt in E. unfold fileEndLimit in E. lia.
    + apply IH; auto. lia.
Qed.

Lemma checkKeyFileEnd_from_newlines (idx : nat) (t : reader) :
  Forall (fun b => isLineEnd b = true) t -> (idx + length t <= 2)%nat ->
  checkKeyFileEnd_from idx t = None.
Proof.
  revert idx; induction t as [|b t IH]; intros idx Hp Hl; simpl; [reflexivity|].
  inversion Hp as [|? ? Hb Hp']; subst. rewrite Hb. simpl in *.
  destruct (fileEndLimit <? idx)%nat eqn:E.
  - apply Nat.ltb_lt in E. unfold fileEndLimit in E. lia.
  - apply IH; auto. lia.
Qed.

Lemma checkKeyFileEnd_from_third (idx : nat) (pre : reader) (b : byte) (post : reader) :
  Forall (fun b => isLineEnd b = true) pre -> (idx + length pre = 2)%nat ->
  isLineEnd b = true ->
  checkKeyFileEnd_from idx (pre ++ b :: post) = Some ErrInvalidPrivateKeyLen.
Proof.
  revert idx; induction pre as [|x pre IH]; intros idx Hp Hl Hb; simpl in *.
  - rewrite Hb. simpl. replace idx with 2%nat by lia. reflexivity.
  - inversion Hp as [|? ? Hx Hp']; subst. rewrite Hx. simpl.
    destruct (fileEndLimit <? idx)%nat eqn:E.
    + apply Nat.ltb_lt in E. unfold fileEndLimit in E. lia.
    + apply IH; auto. lia.
Qed.

(** ** The order on UTXO identifiers *)

Lemma byte_val_inj (x y : byte) : byte_val x = byte_val y -> x = y.
Proof.
  unfold byte_val. intros E. apply N2Z.inj in E.
  rewrite <- (ascii_N_embedding x), <- (ascii_N_embedding y). now rewrite E.
Qed.

Lemma bytes_Compare_antisym (a b : bytes) :
  bytes_Compare b a = CompOpp (bytes_Compare a b).
Proof.
  revert b; induction a as [|x a IH]; intros [|y b]; simpl; auto.
  rewrite (Z.compare_antisym (byte_val x) (byte_val y)).
  destruct (byte_val x ?= byte_val y); simpl; auto.
Qed.

Lemma bytes_Compare_Eq (a b : bytes) : bytes_Compare a b = Eq -> a = b.
Proof.
  revert b; induction a as [|x a IH]; intros [|y b]; simpl; try discriminate; auto.
  destruct (byte_val x ?= byte_val y) eqn:E; try discriminate.
  apply Z.compare_eq in E. apply byte_val_inj in E. subst.
  intros Hc. f_equal. now apply IH.
Qed.

Lemma bytes_Compare_refl (a : bytes) : bytes_Compare a a = Eq.
Proof. induction a; simpl; auto. now rewrite Z.compare_refl. Qed.

Lemma bytes_Compare_Lt_trans (a b c : bytes) :
  bytes_Compare a b = Lt -> bytes_Compare b c = Lt -> bytes_Compare a c = Lt.
Proof.
  revert b c; induction a as [|x a IH]; intros [|y b] [|z c]; simpl;
    try discriminate; auto.
  destruct (byte_val x ?= byte_val y) eqn:E1;
    destruct (byte_val y ?= byte_val z) eqn:E2; try discriminate; intros H1 H2.
  - apply Z.compare_eq in E1, E2. rewrite E1, E2, Z.compare_refl. eauto.
  - apply Z.compare_eq in E1. now rewrite E1, E2.
  - apply Z.compare_eq in E2. now rewrite <- E2, E1.
  - rewrite Z.compare_lt_iff in E1, E2.
    assert (E : (byte_val x ?= byte_val z) = Lt) by (apply Z.compare_lt_iff; lia).
    now rewrite E.
Qed.

Lemma UTXOID_Less_irrefl (i : UTXOID) : UTXOID_Less i i = false.
Proof. unfold UTXOID_Less. rewrite bytes_Compare_refl. apply Z.ltb_irrefl. Qed.

Lemma UTXOID_Less_asym (i j : UTXOID) :
  UTXOID_Less i j = true -> UTXOID_Less j i = false.
Proof.
  unfold UTXOID_Less. rewrite (bytes_Compare_antisym (TxID i) (TxID j)).
  destruct (bytes_Compare (TxID i) (TxID j)); simpl; try discriminate; auto.
  intros Hl. apply Z.ltb_lt in Hl. apply Z.ltb_ge. lia.
Qed.

Lemma UTXOID_Less_trans (i j k : UTXOID) :
  UTXOID_Less i j = true -> UTXOID_Less j k = true -> UTXOID_Less i k = true.
Proof.
  unfold UTXOID_Less.
  destruct (bytes_Compare (TxID i) (TxID j)) eqn:E1; try discriminate;
    destruct (bytes_Compare (TxID j) (TxID k)) eqn:E2; try discriminate;
    intros H1 H2.
  - apply bytes_Compare_Eq in E1, E2. rewrite E1, E2, bytes_Compare_refl.
    apply Z.ltb_lt in H1, H2. apply Z.ltb_lt. lia.
  - apply bytes_Compare_Eq in E1. now rewrite E1, E2.
  - apply bytes_Compare_Eq in E2. now rewrite <- E2, E1.
  - now rewrite (bytes_Compare_Lt_trans _ _ _ E1 E2).
Qed.

(** The order is total: two identifiers neither of which is [Less] than the
    other are the same identifier. *)
Lemma UTXOID_Less_total (i j : UTXOID) :
  UTXOID_Less i j = false -> UTXOID_Less j i = false -> i = j.
Proof.
  unfold UTXOID_Less. rewrite (bytes_Compare_antisym (TxID i) (TxID j)).
  destruct (bytes_Compare (TxID i) (TxID j)) eqn:E; simpl; try discriminate.
  intros H1 H2. apply bytes_Compare_Eq in E.
  apply Z.ltb_ge in H1, H2.
  destruct i as [ti oi], j as [tj oj]; simpl in *. f_equal; [auto|lia].
Qed.

Lemma UTXOID_Less_negtrans (i j k : UTXOID) :
  UTXOID_Less j i = false -> UTXOID_Less k j = false -> UTXOID_Less k i = false.
Proof.
  intros H1 H2. destruct (UTXOID_Less k i) eqn:E; [|reflexivity].
  destruct (UTXOID_Less i j) eqn:E3.
  - now rewrite (UTXOID_Less_trans _ _ _ E E3) in H2.
  - pose proof (UTXOID_Less_total _ _ E3 H1); subst. congruence.
Qed.

Section Ordering.
Context `{Fx}.

Lemma inputs_ordered_trans (a b c : TransferableInput) :
  inputs_ordered a b -> inputs_ordered b c -> inputs_ordered a c.
Proof. unfold inputs_ordered. intros; eapply UTXOID_Less_negtrans; eauto. Qed.

Lemma Sorted_inputs_strongly (l : list TransferableInput) :
  Sorted inputs_ordered l -> StronglySorted inputs_ordered l.
Proof.
  apply Sorted_StronglySorted. intros a b c. apply inputs_ordered_trans.
Qed.

(** A list whose identifiers are pairwise distinct has exactly one sorted
    arrangement. *)
Lemma sorted_perm_unique (l1 l2 : list TransferableInput) :
  NoDup (map In_UTXOID l1) ->
  Permutation l1 l2 ->
  StronglySorted inputs_ordered l1 -> StronglySorted inputs_ordered l2 ->
  l1 = l2.
Proof.
  revert l2; induction l1 as [|a l1 IH]; intros l2 Hnd Hp H1 H2.
  - apply Permutation_nil in Hp. now subst.
  - destruct l2 as [|b l2].
    { apply Permutation_sym, Permutation_nil in Hp. discriminate. }
    inversion H1 as [|? ? S1 F1]; subst. inversion H2 as [|? ? S2 F2]; subst.
    inversion Hnd as [|? ? Hna Hnd']; subst.
    assert (Hab : a = b).
    { assert (Ha : List.In a (b :: l2))
        by (eapply Permutation_in; [exact Hp | now left]).
      assert (Hb : List.In b (a :: l1))
        by (eapply Permutation_in; [apply Permutation_sym; exact Hp | now left]).
      destruct Ha as [->|Ha]; [reflexivity|].
      destruct Hb as [->|Hb]; [reflexivity|].
      rewrite Forall_forall in F1, F2.
      pose proof (F1 _ Hb) as O1. pose proof (F2 _ Ha) as O2.
      unfold inputs_ordered in O1, O2.
      pose proof (UTXOID_Less_total _ _ O2 O1) as E.
      exfalso. apply Hna. rewrite E. now apply in_map. }
    subst b. f_equal. apply IH; auto.
    now apply Permutation_cons_inv in Hp.
Qed.
End Ordering.

(** ** Base 58 *)

Module CB58Facts.
Import CB58.

Section Radix.
Variable base : Z.
Hypothesis base_ge_2 : 2 <= base.

Definition in_range (d : Z) : Prop := 0 <= d < base.

Lemma fold_number (ds : list Z) (a : Z) :
  fold_left (fun a d => a * base + d) ds a
  = a * base ^ Z.of_nat (length ds) + number base ds.
Proof.
  unfold number. revert a. induction ds as [|d ds IH]; intros a.
  - simpl. lia.
  - cbn [fold_left length]. rewrite IH, (IH (0 * base + d)).
    rewrite Nat2Z.inj_succ, Z.pow_succ_r by lia. ring.
Qed.

Lemma number_app (l1 l2 : list Z) :
  number base (l1 ++ l2)
  = number base l1 * base ^ Z.of_nat (length l2) + number base l2.
Proof.
  unfold number at 1. rewrite fold_left_app.
  fold (number base l1). apply fold_number.
Qed.

Lemma number_snoc (l : list Z) (d : Z) :
  number base (l ++ [d]) = number base l * base + d.
Proof. rewrite number_app. simpl. unfold number at 2. simpl. lia. Qed.

Lemma number_zeros (k : nat) (l : list Z) :
  number base (repeat 0 k ++ l) = number base l.
Proof.
  induction k as [|k IH]; [reflexivity|].
  simpl. unfold number in *. simpl. exact IH.
Qed.

Lemma number_bounds (ds : list Z) :
  Forall in_range ds -> 0 <= number base ds < base ^ Z.of_nat (length ds).
Proof.
  induction ds as [|d ds IH] using rev_ind; intros Hr.
  - simpl. unfold number. simpl. lia.
  - apply Forall_app in Hr as [Hr Hd]. inversion Hd as [|? ? Hd' _]; subst.
    specialize (IH Hr). unfold in_range in Hd'.
    rewrite number_snoc, length_app. cbn [length].
    rewrite Nat.add_1_r, Nat2Z.inj_succ, Z.pow_succ_r by lia. nia.
Qed.

Lemma number_lower (d : Z) (ds : list Z) :
  0 < d -> Forall in_range (d :: ds) ->
  base ^ Z.of_nat (length ds) <= number base (d :: ds).
Proof.
  intros Hd Hr. inversion Hr as [|? ? _ Hr']; subst.
  change (d :: ds) with ([d] ++ ds). rewrite number_app.
  pose proof (number_bounds ds Hr') as Hb.
  unfold number at 1. simpl.
  assert (0 < base ^ Z.of_nat (length ds)) by (apply Z.pow_pos_nonneg; lia).
  nia.
Qed.

Lemma digits_from_acc (fuel : nat) :
  forall x acc,
    digits_from fuel base x acc = digits_from fuel base x [] ++ acc.
Proof.
  induction fuel as [|fuel IH]; intros x acc; [reflexivity|].
  simpl. destruct (x <=? 0); [reflexivity|].
  rewrite IH, (IH _ [x mod base]), <- app_assoc. reflexivity.
Qed.

Lemma digits_from_step (fuel : nat) (x : Z) :
  0 < x ->
  digits_from (S fuel) base x [] = digits_from fuel base (x / base) [] ++ [x mod base].
Proof.
  intros Hx. simpl. destruct (x <=? 0) eqn:E; [apply Z.leb_le in E; lia|].
  apply digits_from_acc.
Qed.

Lemma digits_from_zero (fuel : nat) : digits_from fuel base 0 [] = [].
Proof. destruct fuel; reflexivity. Qed.

Lemma div_lt_pow (x : Z) (fuel : nat) :
  0 <= x < base ^ Z.of_nat (S fuel) -> 0 <= x / base < base ^ Z.of_nat fuel.
Proof.
  rewrite Nat2Z.inj_succ, Z.pow_succ_r by lia. intros [H0 H1]. split.
  - apply Z.div_pos; lia.
  - apply Z.div_lt_upper_bound; lia.
Qed.

(** The digits stand for the number. *)
Lemma number_digits (fuel : nat) :
  forall x, 0 <= x < base ^ Z.of_nat fuel ->
            number base (digits_from fuel base x []) = x.
Proof.
  induction fuel as [|fuel IH]; intros x Hx.
  - simpl in *. unfold number. simpl. lia.
  - destruct (Z.eq_dec x 0) as [->|Hn]; [reflexivity|].
    rewrite digits_from_step by lia.
    rewrite number_snoc, IH by (apply div_lt_pow; exact Hx).
    pose proof (Z.div_mod x base). lia.
Qed.

Lemma digits_in_range (fuel : nat) :
  forall x, Forall in_range (digits_from fuel base x []).
Proof.
  induction fuel as [|fuel IH]; intros x; [constructor|].
  simpl. destruct (x <=? 0); [constructor|].
  rewrite digits_from_acc. apply Forall_app. split; [apply IH|].
  constructor; [|constructor]. apply Z.mod_pos_bound. lia.
Qed.

(** The first digit is not zero. *)
Lemma digits_leading (fuel : nat) :
  forall x, 0 < x < base ^ Z.of_nat fuel ->
            exists d ds, digits_from fuel base x [] = d :: ds /\ 0 < d.
Proof.
  induction fuel as [|fuel IH]; intros x Hx.
  - simpl in Hx. lia.
  - rewrite digits_from_step by lia.
    destruct (Z.eq_dec (x / base) 0) as [E|E].
    + rewrite E, digits_from_zero. exists (x mod base), []. split; [reflexivity|].
      pose proof (Z.div_mod x base). pose proof (Z.mod_pos_bound x base). lia.
    + destruct (IH (x / base)) as (d & ds & Hd & Hp).
      { pose proof (div_lt_pow x fuel). lia. }
      rewrite Hd. exists d, (ds ++ [x mod base]). auto.
Qed.

(** A list of digits without a leading zero is the list of digits of its
    number. *)
Lemma digits_number (ds : list Z) :
  forall fuel,
    Forall in_range ds -> (ds = [] \/ 0 < hd 0 ds) -> (length ds <= fuel)%nat ->
    digits_from fuel base (number base ds) [] = ds.
Proof.
  induction ds as [|d ds IH] using rev_ind; intros fuel Hr Hh Hl.
  - apply digits_from_zero.
  - apply Forall_app in Hr as [Hr Hd]. inversion Hd as [|? ? Hd' _]; subst.
    unfold in_range in Hd'. rewrite length_app in Hl. cbn [length] in Hl.
    destruct fuel as [|fuel]; [lia|].
    assert (Hpos : 0 < number base (ds ++ [d])).
    { destruct Hh as [Hh|Hh]; [destruct ds; discriminate|].
      destruct ds as [|e ds].
      - simpl in Hh. unfold number. simpl. lia.
      - simpl in Hh. change ((e :: ds) ++ [d]) with (e :: (ds ++ [d])).
        assert (Hr' : Forall in_range (e :: (ds ++ [d]))).
        { change (e :: (ds ++ [d])) with ((e :: ds) ++ [d]).
          apply Forall_app. split; [exact Hr|]. constructor; auto. }
        pose proof (number_lower e (ds ++ [d]) Hh Hr').
        assert (0 < base ^ Z.of_nat (length (ds ++ [d])))
          by (apply Z.pow_pos_nonneg; lia).
        lia. }
    rewrite digits_from_step by exact Hpos.
    rewrite number_snoc.
    pose proof (number_bounds ds Hr) as Hb.
    replace ((number base ds * base + d) / base) with (number base ds)
      by (apply Z.div_unique_pos with (r := d); lia).
    replace ((number base ds * base + d) mod base) with d
      by (apply Z.mod_unique_pos with (q := number base ds); lia).
    rewrite IH; auto; [|lia].
    destruct Hh as [Hh|Hh]; [destruct ds; discriminate|].
    destruct ds as [|e ds]; [now left|right; exact Hh].
Qed.

End Radix.

Lemma byte_val_range (c : byte) : 0 <= byte_val c < 256.
Proof.
  unfold byte_val. pose proof (N_ascii_bounded c). lia.
Qed.

Lemma byte_of_val (c : byte) : byte_of (byte_val c) = c.
Proof.
  unfold byte_of. rewrite Z.mod_small by apply byte_val_range.
  unfold byte_val. rewrite N2Z.id. apply ascii_N_embedding.
Qed.

Lemma is_zero_true (c : byte) : is_zero c = true -> c = zero_byte.
Proof.
  unfold is_zero. intros E. apply Z.eqb_eq in E.
  apply byte_val_inj. rewrite E. reflexivity.
Qed.

Lemma digit_index (n : nat) :
  (n < 58)%nat ->
  char_digit (digit_char (Z.of_nat n)) = Some (Z.of_nat n) /\
  is_one (digit_char (Z.of_nat n)) = (Z.of_nat n =? 0).
Proof.
  intros Hn. unfold digit_char. rewrite Nat2Z.id.
  do 58 (destruct n as [|n]; [split; reflexivity|]). lia.
Qed.

Lemma char_digit_digit_char (d : Z) :
  0 <= d < 58 -> char_digit (digit_char d) = Some d.
Proof.
  intros Hd. rewrite <- (Z2Nat.id d) by lia. apply digit_index. lia.
Qed.

Lemma is_one_digit_char (d : Z) :
  0 <= d < 58 -> is_one (digit_char d) = (d =? 0).
Proof.
  intros Hd. rewrite <- (Z2Nat.id d) by lia. apply digit_index. lia.
Qed.

Lemma digit_char_alphabet (d : Z) : List.In (digit_char d) alphabet.
Proof.
  unfold digit_char.
  destruct (Nat.lt_ge_cases (Z.to_nat d) (length alphabet)) as [H|H].
  - now apply nth_In.
  - rewrite nth_overflow by exact H. now left.
Qed.

Lemma parse_app (s1 s2 : gostring) (d1 d2 : list Z) :
  parse s1 = Some d1 -> parse s2 = Some d2 -> parse (s1 ++ s2) = Some (d1 ++ d2).
Proof.
  revert d1; induction s1 as [|c s1 IH]; intros d1 H1 H2.
  - inversion H1; subst. exact H2.
  - simpl in *. destruct (char_digit c) as [d|]; [|discriminate].
    destruct (parse s1) as [ds|]; [|discriminate].
    inversion H1; subst. now rewrite (IH ds eq_refl H2).
Qed.

Lemma parse_ones (k : nat) : parse (repeat "1"%char k) = Some (repeat 0 k).
Proof. induction k as [|k IH]; [reflexivity|]. simpl. now rewrite IH. Qed.

Lemma parse_digits (ds : list Z) :
  Forall (in_range 58) ds -> parse (map digit_char ds) = Some ds.
Proof.
  induction 1 as [|d ds Hd _ IH]; [reflexivity|].
  simpl. now rewrite (char_digit_digit_char d Hd), IH.
Qed.

Lemma leading_ones (k : nat) (s : gostring) :
  leading is_one (repeat "1"%char k ++ s) = (k + leading is_one s)%nat.
Proof. induction k as [|k IH]; [reflexivity|]. simpl. now rewrite IH. Qed.

Lemma leading_zeros_split (b : bytes) :
  b = repeat zero_byte (leading is_zero b) ++ skipn (leading is_zero b) b /\
  (skipn (leading is_zero b) b = [] \/
   0 < hd 0 (map byte_val (skipn (leading is_zero b) b))).
Proof.
  induction b as [|c b [IH1 IH2]]; [split; [reflexivity|now left]|].
  simpl. destruct (is_zero c) eqn:E.
  - apply is_zero_true in E. subst c. simpl. split; [now f_equal|exact IH2].
  - simpl. split; [reflexivity|]. right.
    unfold is_zero in E. apply Z.eqb_neq in E.
    pose proof (byte_val_range c). lia.
Qed.

Lemma bytes_in_range (b : bytes) : Forall (in_range 256) (map byte_val b).
Proof.
  induction b; simpl; constructor; auto. apply byte_val_range.
Qed.

Lemma map_byte_of_val (b : bytes) : map byte_of (map byte_val b) = b.
Proof.
  induction b as [|c b IH]; [reflexivity|]. simpl. now rewrite byte_of_val, IH.
Qed.

Lemma number_zero_bytes (k : nat) (b : bytes) :
  number 256 (map byte_val (repeat zero_byte k ++ b))
  = number 256 (map byte_val b).
Proof.
  rewrite map_app, map_repeat. apply number_zeros.
Qed.

Lemma no_leading_one (ds : list Z) :
  Forall (in_range 58) ds -> (ds = [] \/ 0 < hd 0 ds) ->
  leading is_one (map digit_char ds) = 0%nat.
Proof.
  intros Hr [->|Hh]; [reflexivity|].
  destruct ds as [|d ds]; [reflexivity|]. simpl in Hh.
  inversion Hr as [|? ? Hd _]; subst. simpl.
  rewrite (is_one_digit_char d Hd).
  destruct (d =? 0) eqn:E; [apply Z.eqb_eq in E; lia|reflexivity].
Qed.

Lemma pow_256_58 (n : nat) : 256 ^ Z.of_nat n <= 58 ^ Z.of_nat (2 * n).
Proof.
  rewrite Nat2Z.inj_mul, Z.pow_mul_r by lia.
  apply Z.pow_le_mono_l. simpl. lia.
Qed.

(** Decoding undoes encoding. *)
Lemma base58_Decode_Encode (b : bytes) : base58_Decode (base58_Encode b) = Ok b.
Proof.
  destruct (leading_zeros_split b) as [Hsplit Hlead].
  set (k := leading is_zero b) in *. set (b' := skipn k b) in *.
  set (x := number 256 (map byte_val b)).
  assert (Hx : x = number 256 (map byte_val b'))
    by (unfold x; rewrite Hsplit at 1; apply number_zero_bytes).
  assert (Hb' : 0 <= x < 256 ^ Z.of_nat (length b')).
  { rewrite Hx, <- (length_map byte_val b').
    apply number_bounds; [lia|apply bytes_in_range]. }
  assert (Hlen : (length b' <= length b)%nat).
  { unfold b'. rewrite length_skipn. lia. }
  assert (Hfuel : 0 <= x < 58 ^ Z.of_nat (2 * length b)).
  { split; [lia|]. eapply Z.lt_le_trans; [apply Hb'|].
    eapply Z.le_trans; [|apply pow_256_58].
    apply Z.pow_le_mono_r; lia. }
  set (E := digits_from (2 * length b) 58 x []).
  assert (HE : number 58 E = x) by (apply number_digits; [lia|exact Hfuel]).
  assert (HEr : Forall (in_range 58) E) by (apply digits_in_range; lia).
  assert (HEl : E = [] \/ 0 < hd 0 E).
  { destruct (Z.eq_dec x 0) as [E0|E0].
    - left. unfold E. rewrite E0. apply digits_from_zero.
    - right. destruct (digits_leading 58 ltac:(lia) (2 * length b) x)
        as (d & ds & Hd & Hp); [lia|]. unfold E. rewrite Hd. exact Hp. }
  unfold base58_Encode, base58_Decode. fold k x E.
  rewrite (parse_app _ _ _ _ (parse_ones k) (parse_digits E HEr)).
  rewrite leading_ones, (no_leading_one E HEr HEl), Nat.add_0_r.
  rewrite (number_zeros 58 k E), HE.
  rewrite length_app, repeat_length, length_map.
  rewrite Hx, digits_number; try lia.
  - rewrite map_byte_of_val. now rewrite <- Hsplit.
  - apply bytes_in_range.
  - destruct Hlead as [->|Hl]; [now left|now right].
  - rewrite length_map.
    destruct Hlead as [Hn|Hl]; [rewrite Hn; simpl; lia|].
    destruct (map byte_val b') as [|d ds] eqn:Hm; [simpl in Hl; lia|].
    simpl in Hl.
    assert (Hlow : 256 ^ Z.of_nat (length ds) <= x).
    { rewrite Hx. apply number_lower; [lia|exact Hl|].
      rewrite <- Hm. apply bytes_in_range. }
    assert (Hup : x < 58 ^ Z.of_nat (length E)).
    { rewrite <- HE. apply number_bounds; [lia|exact HEr]. }
    assert (H58 : 58 ^ Z.of_nat (length ds) <= 256 ^ Z.of_nat (length ds))
      by (apply Z.pow_le_mono_l; lia).
    assert (Hlt : Z.of_nat (length ds) < Z.of_nat (length E)).
    { apply (Z.pow_lt_mono_r_iff 58); lia. }
    apply (f_equal (@length Z)) in Hm. rewrite length_map in Hm.
    simpl in Hm. lia.
Qed.

Lemma base58_Encode_alphabet (b : bytes) (c : byte) :
  List.In c (base58_Encode b) -> List.In c alphabet.
Proof.
  unfold base58_Encode. intros Hin. apply in_app_or in Hin as [Hin|Hin].
  - apply repeat_spec in Hin. subst c. now left.
  - apply in_map_iff in Hin as (d & <- & _). apply digit_char_alphabet.
Qed.

Lemma base58_Encode_nonempty (b : bytes) : b <> [] -> base58_Encode b <> [].
Proof.
  intros Hb He.
  pose proof (base58_Decode_Encode b) as Hd. rewrite He in Hd.
  vm_compute in Hd. inversion Hd. congruence.
Qed.

Lemma state_bytes_length (s : state) : length (state_bytes s) = 32%nat.
Proof. reflexivity. Qed.

Lemma Checksum_length (b : bytes) : length (Checksum b) = 4%nat.
Proof.
  unfold Checksum, sha256. rewrite length_skipn, state_bytes_length. reflexivity.
Qed.

Lemma Decode_EncodeWithChecksum (b : bytes) (s : gostring) :
  EncodeWithChecksum b = Ok s -> Decode s = Ok b.
Proof.
  unfold EncodeWithChecksum, Decode.
  destruct (maxCB58EncodeSize <? length b)%nat; [discriminate|].
  intros E; inversion E; subst; clear E.
  destruct (base58_Encode (b ++ Checksum b)) as [|c s] eqn:Es.
  - exfalso. eapply base58_Encode_nonempty; [|exact Es].
    intros Hn. apply (f_equal (@length ascii)) in Hn.
    rewrite length_app, Checksum_length in Hn. simpl in Hn. lia.
  - rewrite <- Es, base58_Decode_Encode. cbn [bind].
    rewrite length_app, Checksum_length. unfold checksumLen.
    destruct (length b + 4 <? 4)%nat eqn:E; [apply Nat.ltb_lt in E; lia|].
    replace (length b + 4 - 4)%nat with (length b) by lia.
    rewrite firstn_app, firstn_all, Nat.sub_diag, firstn_0, app_nil_r.
    rewrite skipn_app, skipn_all, Nat.sub_diag, skipn_O. simpl app.
    now rewrite bytes_Equal_refl.
Qed.

Lemma EncodeWithChecksum_alphabet (b : bytes) (s : gostring) :
  EncodeWithChecksum b = Ok s -> ~ List.In "-"%char s.
Proof.
  unfold EncodeWithChecksum.
  destruct (maxCB58EncodeSize <? length b)%nat; [discriminate|].
  intros E; inversion E; subst; clear E. intros Hin.
  apply base58_Encode_alphabet in Hin. vm_compute in Hin.
  repeat (destruct Hin as [Hin|Hin]; [discriminate|]). exact Hin.
Qed.

Lemma EncodeWithChecksum_nonempty (b : bytes) (s : gostring) :
  EncodeWithChecksum b = Ok s -> s <> [].
Proof.
  unfold EncodeWithChecksum.
  destruct (maxCB58EncodeSize <? length b)%nat; [discriminate|].
  intros E; inversion E; subst; clear E.
  apply base58_Encode_nonempty. intros Hn.
  apply (f_equal (@length ascii)) in Hn.
  rewrite length_app, Checksum_length in Hn. simpl in Hn. lia.
Qed.

End CB58Facts.

(** ** The executable instance meets the contracts *)

Module RefLaws.
Import Ref.

#[export] Instance formatting_laws : FormattingLaws.
Proof.
  split.
  - intros b s. apply CB58Facts.Decode_EncodeWithChecksum.
  - intros b Hl. cbn [EncodeWithChecksum formatting]. unfold CB58.EncodeWithChecksum.
    destruct (CB58.maxCB58EncodeSize <? length b)%nat eqn:E; [|eauto].
    apply Nat.ltb_lt in E. unfold CB58.maxCB58EncodeSize in E. lia.
  - intros b s. apply CB58Facts.EncodeWithChecksum_alphabet.
  - intros b s. apply CB58Facts.EncodeWithChecksum_nonempty.
Qed.

#[export] Instance crypto_laws : CryptoLaws.
Proof.
  split.
  - intros k. exists (SECP k), k. auto.
  - intros b _. exists (SECP b), b. auto.
Qed.

#[export] Instance fx_laws : FxLaws.
Proof.
  split. intros i. unfold is_uint64, uint64_mod. cbn [Amount fx].
  destruct (fits64 (fst i)) eqn:E; [|lia].
  unfold fits64 in E. apply andb_true_iff in E as [E1 E2].
  apply Z.leb_le in E1. apply Z.ltb_lt in E2. split; [exact E1|].
  destruct (Z.eq_dec (fst i) 0) as [->|Hn]; [reflexivity|].
  apply Z.log2_lt_pow2; lia.
Qed.

Lemma insert_Permutation (x : TransferableInput) (l : list TransferableInput) :
  Permutation (insert x l) (x :: l).
Proof.
  induction l as [|y l IH]; simpl; auto.
  destruct (UTXOID_Less (In_UTXOID x) (In_UTXOID y)); auto.
  rewrite IH. apply perm_swap.
Qed.

Lemma insert_Sorted (x : TransferableInput) (l : list TransferableInput) :
  Sorted inputs_ordered l -> Sorted inputs_ordered (insert x l).
Proof.
  induction l as [|y l IH]; intros Hs; simpl.
  - repeat constructor.
  - destruct (UTXOID_Less (In_UTXOID x) (In_UTXOID y)) eqn:E.
    + constructor; auto. constructor. unfold inputs_ordered.
      now apply UTXOID_Less_asym.
    + inversion Hs as [|? ? Hs' Hd]; subst. constructor; auto.
      destruct l as [|z l]; simpl.
      * constructor. exact E.
      * destruct (UTXOID_Less (In_UTXOID x) (In_UTXOID z)).
        -- constructor. exact E.
        -- inversion Hd; subst. now constructor.
Qed.

#[export] Instance avax_laws : AvaxLaws.
Proof.
  split.
  - induction l as [|x l IH]; simpl; auto.
    unfold sort in *. simpl. rewrite insert_Permutation. now constructor.
  - induction l as [|x l IH]; simpl; [constructor|].
    apply insert_Sorted. exact IH.
Qed.

End RefLaws.

(** ** The key codec and the constructor *)

Section Codec.
Context {F : Formatting} {FL : FormattingLaws}.
Context {C : Crypto} {CL : CryptoLaws}.
Context {X : Fx} {A : Avax}.

Lemma privKeyEncPfx_dash : List.In "-"%char privKeyEncPfx.
Proof. vm_compute. tauto. Qed.

Lemma encodePrivateKey_Ok (pk : PrivateKeySECP256K1R) (enc : gostring) :
  encodePrivateKey pk = Ok enc <->
  exists s, EncodeWithChecksum CB58 (Bytes pk) = Ok s /\ enc = privKeyEncPfx ++ s.
Proof.
  unfold encodePrivateKey.
  destruct (EncodeWithChecksum CB58 (Bytes pk)) as [s|e]; cbn [bind]; split.
  - intros E; inversion E; eauto.
  - intros (s' & E & ->). now inversion E.
  - discriminate.
  - intros (s' & E & _). discriminate.
Qed.

(** An encoded form starts with the letter P. *)
Lemma encodePrivateKey_first (pk : PrivateKeySECP256K1R) (c : byte)
      (s : gostring) :
  c <> "P"%char -> encodePrivateKey pk <> Ok (c :: s).
Proof.
  intros Hc E. apply encodePrivateKey_Ok in E as (p & _ & E).
  inversion E. congruence.
Qed.

Lemma encodePrivateKey_Bytes (pk pk' : PrivateKeySECP256K1R) :
  Bytes pk = Bytes pk' -> encodePrivateKey pk = encodePrivateKey pk'.
Proof. unfold encodePrivateKey. now intros ->. Qed.

(** Decoding the payload of a key, with or without the prefix. *)
Lemma decodePrivateKey_payload (pk : PrivateKeySECP256K1R) (s : gostring) :
  EncodeWithChecksum CB58 (Bytes pk) = Ok s ->
  exists pk',
    decodePrivateKey s = Ok pk' /\
    decodePrivateKey (privKeyEncPfx ++ s) = Ok pk' /\
    Bytes pk' = Bytes pk.
Proof.
  intros E.
  destruct (ToPrivateKey_Bytes pk) as (p & k' & Hp & Hk & Hb).
  exists k'. unfold decodePrivateKey.
  rewrite Replace_prefix.
  rewrite Replace_absent
    by (apply cut_None_char with (c := "-"%char);
        [apply privKeyEncPfx_dash | eapply EncodeWithChecksum_alphabet; eauto]).
  rewrite (Decode_EncodeWithChecksum _ _ E). cbn [bind].
  rewrite Hp. cbn [bind]. rewrite Hk. auto.
Qed.

Lemma not_prefixed_neq (enc s : gostring) :
  HasPrefix enc privKeyEncPfx = false ->
  bytes_Equal enc (privKeyEncPfx ++ s) = false.
Proof.
  intros Hp. apply bytes_Equal_neq. intros ->.
  now rewrite HasPrefix_app in Hp.
Qed.

(** [New] reads only two fields of the options when an encoded key is
    given; these lemmas are stated on the options after [applyOpts]. *)
Lemma length_pos_nonempty (enc : gostring) :
  enc <> [] -> (0 <? length enc)%nat = true /\ bytes_Equal enc [] = false.
Proof. destruct enc; [congruence|]. intros _. split; reflexivity. Qed.

Lemma New_encoded_unprefixed (networkID : Z) (name : gostring)
      (opts : list OpOption) (fresh : result PrivateKey) :
  Op_privKeyEncoded (applyOpts Op_zero opts) <> [] ->
  HasPrefix (Op_privKeyEncoded (applyOpts Op_zero opts)) privKeyEncPfx = false ->
  exists e, New networkID name opts fresh = Err e.
Proof.
  intros Hne Hp. unfold New.
  destruct (length_pos_nonempty _ Hne) as [-> Hn].
  destruct (decodePrivateKey _) as [d|e]; cbn [bind]; [|eauto].
  destruct (Op_privKey _) as [k|].
  - destruct (negb (bytes_Equal (Bytes k) (Bytes d))); cbn [bind]; [eauto|].
    destruct (encodePrivateKey d) as [enc|e] eqn:E; cbn [bind]; [|eauto].
    apply encodePrivateKey_Ok in E as (s & _ & ->).
    rewrite Hn, (not_prefixed_neq _ _ Hp). simpl. eauto.
  - cbn [bind].
    destruct (encodePrivateKey d) as [enc|e] eqn:E; cbn [bind]; [|eauto].
    apply encodePrivateKey_Ok in E as (s & _ & ->).
    rewrite Hn, (not_prefixed_neq _ _ Hp). simpl. eauto.
Qed.

Lemma updateAddr_Ok (m m' : smanager) :
  updateAddr m = Ok m' ->
  hrp m' = hrp m /\ privKey m' = privKey m /\ privKeyRaw m' = privKeyRaw m /\
  privKeyEncoded m' = privKeyEncoded m /\ keyChain m' = keyChain m /\
  FormatAddress (str "P") (hrp m) (PublicKeyAddress (privKey m)) = Ok (pAddr m').
Proof.
  unfold updateAddr.
  destruct (FormatAddress _ _ _) as [a|e]; cbn [bind]; [|discriminate].
  intros E; inversion E; subst; simpl. auto 10.
Qed.

(** What a successful [New] returns. *)
Lemma New_Ok (networkID : Z) (name : gostring) (opts : list OpOption)
      (fresh : result PrivateKey) (m : smanager) :
  New networkID name opts fresh = Ok m ->
  hrp m = getHRP networkID /\
  privKeyRaw m = Bytes (privKey m) /\
  encodePrivateKey (privKey m) = Ok (privKeyEncoded m) /\
  keyChain m = Keychain_Add NewKeychain (privKey m) /\
  FormatAddress (str "P") (getHRP networkID) (PublicKeyAddress (privKey m))
    = Ok (pAddr m).
Proof.
  unfold New.
  destruct (if (0 <? length _)%nat then _ else _) as [given|e]; cbn [bind];
    [|discriminate].
  destruct (match given with Some k => Ok k | None => _ end) as [pk|e];
    cbn [bind]; [|discriminate].
  destruct (encodePrivateKey pk) as [enc|e] eqn:E; cbn [bind]; [|discriminate].
  destruct (_ && _); [discriminate|].
  intros Hu. apply updateAddr_Ok in Hu. simpl in Hu.
  destruct Hu as (-> & -> & -> & -> & -> & Hf). auto.
Qed.

End Codec.

(** ** Claims on the codec and the constructor *)

Section CodecClaims.
Context {F : Formatting} {FL : FormattingLaws}.
Context {C : Crypto} {CL : CryptoLaws}.
Context {X : Fx} {A : Avax}.

(** C1.  Round trip: a 32-byte key encodes to ["PrivateKey-"] followed by
    the checksummed payload, and decoding that string succeeds with a key
    of exactly the same bytes. *)
Theorem encode_decode_roundtrip (pk : PrivateKeySECP256K1R) :
  length (Bytes pk) = 32%nat ->
  exists enc pk',
    encodePrivateKey pk = Ok enc /\
    HasPrefix enc privKeyEncPfx = true /\
    decodePrivateKey enc = Ok pk' /\
    Bytes pk' = Bytes pk.
Proof.
  intros Hl.
  destruct (EncodeWithChecksum_key (Bytes pk)) as (s & Hs); [lia|].
  destruct (decodePrivateKey_payload pk s Hs) as (pk' & _ & Hd & Hb).
  exists (privKeyEncPfx ++ s), pk'. repeat split; auto.
  - apply encodePrivateKey_Ok. eauto.
  - apply HasPrefix_app.
Qed.

(** C8.  With both a raw key and an encoded string in the options: when
    the string decodes to other bytes than the raw key's, [New] fails with
    [ErrInvalidPrivateKey]; when the string is the encoding of the raw
    key, [New] succeeds (the address formatter accepting the key's
    address) and the manager holds that key and that string. *)
Theorem New_raw_and_encoded (networkID : Z) (name : gostring)
        (opts : list OpOption) (fresh : result PrivateKey)
        (k : PrivateKeySECP256K1R) (enc : gostring) :
  Op_privKey (applyOpts Op_zero opts) = Some k ->
  Op_privKeyEncoded (applyOpts Op_zero opts) = enc ->
  (forall k2,
      enc <> [] -> decodePrivateKey enc = Ok k2 -> Bytes k2 <> Bytes k ->
      New networkID name opts fresh = Err ErrInvalidPrivateKey)
  /\
  (encodePrivateKey k = Ok enc ->
   (forall k', Bytes k' = Bytes k ->
      exists a, FormatAddress (str "P") (getHRP networkID)
                              (PublicKeyAddress k') = Ok a) ->
   exists m, New networkID name opts fresh = Ok m /\
             Raw m = Bytes k /\ Encode m = enc).
Proof.
  intros Hk He. split.
  - intros k2 Hne Hd Hb. unfold New. rewrite He, Hk.
    destruct (length_pos_nonempty _ Hne) as [-> _].
    rewrite Hd. cbn [bind].
    assert (Hf : bytes_Equal (Bytes k) (Bytes k2) = false)
      by (apply bytes_Equal_neq; congruence).
    rewrite Hf. reflexivity.
  - intros Henc Hfmt.
    pose proof Henc as Henc'.
    apply encodePrivateKey_Ok in Henc' as (s & Hs & ->).
    destruct (decodePrivateKey_payload k s Hs) as (k' & _ & Hd & Hb).
    destruct (Hfmt k' Hb) as (a & Ha).
    unfold New. rewrite He, Hk.
    assert (Hne : privKeyEncPfx ++ s <> []) by discriminate.
    destruct (length_pos_nonempty _ Hne) as [-> _].
    rewrite Hd. cbn [bind]. rewrite <- Hb, bytes_Equal_refl. cbn [negb bind].
    rewrite (encodePrivateKey_Bytes k' k Hb), Henc. cbn [bind].
    rewrite bytes_Equal_refl, andb_false_r.
    unfold updateAddr. cbn [hrp privKey]. rewrite Ha. cbn [bind].
    eexists. split; [reflexivity|]. split; reflexivity.
Qed.

(** C10.  [decodePrivateKey] does not need the prefix: the bare payload of
    a key decodes to the same key as the prefixed form.  Only the first
    occurrence of the prefix is removed, wherever it stands: when no
    occurrence starts before the one after [before], what is decoded is
    [before ++ after], whatever [after] holds, a second prefix included;
    and a string without the prefix is decoded as it is.  [New] given the
    bare payload fails with [ErrInvalidPrivateKeyEncoding], and the encoded
    form of every manager [New] returns starts with ["PrivateKey-"]. *)
Theorem decodePrivateKey_prefix_optional :
  (forall pk s,
      EncodeWithChecksum CB58 (Bytes pk) = Ok s ->
      exists pk',
        decodePrivateKey s = Ok pk' /\
        decodePrivateKey (privKeyEncPfx ++ s) = Ok pk' /\
        Bytes pk' = Bytes pk)
  /\
  (forall before after,
      (forall b1 a1,
          before ++ privKeyEncPfx ++ after = b1 ++ privKeyEncPfx ++ a1 ->
          (length before <= length b1)%nat) ->
      decodePrivateKey (before ++ privKeyEncPfx ++ after)
      = decodeRawPk (before ++ after))
  /\
  (forall s,
      (forall before after, s <> before ++ privKeyEncPfx ++ after) ->
      decodePrivateKey s = decodeRawPk s)
  /\
  (forall networkID name fresh pk s,
      EncodeWithChecksum CB58 (Bytes pk) = Ok s ->
      New networkID name [WithPrivateKeyEncoded s] fresh
      = Err ErrInvalidPrivateKeyEncoding)
  /\
  (forall networkID name opts fresh m,
      New networkID name opts fresh = Ok m ->
      HasPrefix (Encode m) privKeyEncPfx = true).
Proof.
  split; [|split; [|split; [|split]]].
  - intros pk s. apply decodePrivateKey_payload.
  - intros before after Hfirst. unfold decodePrivateKey, decodeRawPk.
    now rewrite (Replace_first _ _ [] _ _ (cut_at before _ after Hfirst)).
  - intros s Hno. unfold decodePrivateKey, decodeRawPk.
    rewrite Replace_absent; [reflexivity|].
    destruct (cut s privKeyEncPfx) as [[b a]|] eqn:Hc; [|reflexivity].
    exfalso. exact (Hno b a (cut_Some _ _ _ _ Hc)).
  - intros networkID name fresh pk s Hs.
    destruct (decodePrivateKey_payload pk s Hs) as (pk' & Hd & _ & Hb).
    pose proof (EncodeWithChecksum_nonempty _ _ Hs) as Hne.
    unfold New. cbn [applyOpts fold_left WithPrivateKeyEncoded Op_zero
                     Op_privKeyEncoded Op_privKey].
    destruct (length_pos_nonempty _ Hne) as [-> Hn].
    rewrite Hd. cbn [bind].
    assert (He : encodePrivateKey pk' = Ok (privKeyEncPfx ++ s))
      by (apply encodePrivateKey_Ok; exists s; rewrite Hb; auto).
    rewrite He. cbn [bind]. rewrite Hn.
    assert (Hx : bytes_Equal s (privKeyEncPfx ++ s) = false).
    { apply bytes_Equal_neq. intros E.
      apply (f_equal (@length byte)) in E. rewrite length_app in E.
      simpl in E. lia. }
    rewrite Hx. reflexivity.
  - intros networkID name opts fresh m Hm.
    apply New_Ok in Hm as (_ & _ & He & _).
    apply encodePrivateKey_Ok in He as (s & _ & He).
    unfold Encode. rewrite He. apply HasPrefix_app.
Qed.

End CodecClaims.

(** ** The selection loop *)

Section Loop.
Context {F : Formatting} {C : Crypto} {X : Fx} {A : Avax}.
Variables (m : smanager) (ret : Op).

Lemma Spends_loop_cons (out : UTXO) (rest : list UTXO) (total : Z)
      (inputs : list TransferableInput) :
  Spends_loop m ret (out :: rest) total inputs =
  match spend m out (Op_time ret) with
  | Err _ => Spends_loop m ret rest total inputs
  | Ok input =>
      if target_exceeded ret (add64 total (Amount input))
      then (add64 total (Amount input), inputs ++ [mkInput out input])
      else Spends_loop m ret rest (add64 total (Amount input))
                       (inputs ++ [mkInput out input])
  end.
Proof. reflexivity. Qed.

(** While the test has not fired, the loop goes on with what follows. *)
Lemma Spends_loop_app (pre rest : list UTXO) :
  forall total inputs,
    target_exceeded ret (fst (Spends_loop m ret pre total inputs)) = false ->
    Spends_loop m ret (pre ++ rest) total inputs =
    Spends_loop m ret rest (fst (Spends_loop m ret pre total inputs))
                           (snd (Spends_loop m ret pre total inputs)).
Proof.
  induction pre as [|out pre IH]; intros total inputs Hc; [reflexivity|].
  change ((out :: pre) ++ rest) with (out :: (pre ++ rest)).
  rewrite !Spends_loop_cons in *.
  destruct (spend m out (Op_time ret)) as [input|e]; [|now apply IH].
  destruct (target_exceeded ret (add64 total (Amount input))) eqn:E.
  - simpl in Hc. congruence.
  - now apply IH.
Qed.

(** Once the test has fired, nothing that follows is looked at. *)
Lemma Spends_loop_stop (l post : list UTXO) :
  forall total inputs,
    target_exceeded ret total = false ->
    target_exceeded ret (fst (Spends_loop m ret l total inputs)) = true ->
    Spends_loop m ret (l ++ post) total inputs = Spends_loop m ret l total inputs.
Proof.
  induction l as [|out l IH]; intros total inputs H0 Hc.
  - simpl in Hc. congruence.
  - change ((out :: l) ++ post) with (out :: (l ++ post)).
    rewrite !Spends_loop_cons in *.
    destruct (spend m out (Op_time ret)) as [input|e]; [|now apply IH].
    destruct (target_exceeded ret (add64 total (Amount input))) eqn:E;
      [reflexivity|now apply IH].
Qed.

(** An output that cannot be spent leaves no trace. *)
Lemma Spends_loop_skip (pre : list UTXO) (out : UTXO) (post : list UTXO) (e : error) :
  spend m out (Op_time ret) = Err e ->
  forall total inputs,
    Spends_loop m ret (pre ++ out :: post) total inputs =
    Spends_loop m ret (pre ++ post) total inputs.
Proof.
  intros He. induction pre as [|o pre IH]; intros total inputs.
  - simpl app. rewrite Spends_loop_cons, He. reflexivity.
  - change ((o :: pre) ++ out :: post) with (o :: (pre ++ out :: post)).
    change ((o :: pre) ++ post) with (o :: (pre ++ post)).
    rewrite !Spends_loop_cons.
    destruct (spend m o (Op_time ret)) as [input|e']; [|apply IH].
    destruct (target_exceeded ret _); [reflexivity|apply IH].
Qed.

Lemma spendable_inputs_app (time : Z) (l1 l2 : list UTXO) :
  spendable_inputs m time (l1 ++ l2) =
  spendable_inputs m time l1 ++ spendable_inputs m time l2.
Proof. unfold spendable_inputs. apply flat_map_app. Qed.

Lemma spendable_inputs_cons (time : Z) (out : UTXO) (l : list UTXO) :
  spendable_inputs m time (out :: l) =
  match spend m out time with
  | Ok input => mkInput out input :: spendable_inputs m time l
  | Err _ => spendable_inputs m time l
  end.
Proof.
  unfold spendable_inputs. simpl. now destruct (spend m out time).
Qed.

Lemma add64_sum (total a : Z) (l : list Z) :
  (add64 total a + sum l) mod uint64_mod = (total + sum (a :: l)) mod uint64_mod.
Proof.
  unfold add64. simpl. rewrite Zplus_mod_idemp_l. f_equal. lia.
Qed.

(** The loop selects the spendable outputs of a prefix of the candidates,
    and its total is their sum modulo [2^64]. *)
Lemma Spends_loop_prefix (outputs : list UTXO) :
  forall total inputs,
  exists k,
    (k <= length outputs)%nat /\
    snd (Spends_loop m ret outputs total inputs) =
      inputs ++ spendable_inputs m (Op_time ret) (firstn k outputs) /\
    fst (Spends_loop m ret outputs total inputs) mod uint64_mod =
      (total + sum (amounts (spendable_inputs m (Op_time ret) (firstn k outputs))))
        mod uint64_mod /\
    (target_exceeded ret (fst (Spends_loop m ret outputs total inputs)) = false ->
     target_exceeded ret total = false -> k = length outputs).
Proof.
  induction outputs as [|out outputs IH]; intros total inputs.
  - exists 0%nat. simpl. rewrite app_nil_r, Z.add_0_r. auto.
  - rewrite Spends_loop_cons.
    destruct (spend m out (Op_time ret)) as [input|e] eqn:Hs.
    + destruct (target_exceeded ret (add64 total (Amount input))) eqn:E.
      * exists 1%nat. cbn [firstn]. rewrite spendable_inputs_cons, Hs.
        cbn [fst snd length]. repeat split; try lia.
        -- change (spendable_inputs m (Op_time ret) []) with (@nil TransferableInput).
           cbn [amounts map sum fold_right]. unfold add64.
           rewrite Z.mod_mod by (unfold uint64_mod; lia). f_equal. simpl. lia.
        -- congruence.
      * destruct (IH (add64 total (Amount input)) (inputs ++ [mkInput out input]))
          as (k & Hk & Hi & Ht & Hfull).
        exists (S k). cbn [firstn]. rewrite spendable_inputs_cons, Hs.
        cbn [length]. repeat split; try lia.
        -- rewrite Hi, <- app_assoc. reflexivity.
        -- rewrite Ht. cbn [amounts map]. apply add64_sum.
        -- intros H1 _. f_equal. apply Hfull; auto.
    + destruct (IH total inputs) as (k & Hk & Hi & Ht & Hfull).
      exists (S k). cbn [firstn]. rewrite spendable_inputs_cons, Hs.
      cbn [length]. repeat split; try lia; auto.
Qed.

End Loop.

Section LoopFacts.
Context {F : Formatting} {C : Crypto} {X : Fx} {A : Avax}.

Lemma add64_uint64 (a b : Z) : is_uint64 (add64 a b).
Proof. apply Z.mod_pos_bound. reflexivity. Qed.

Lemma Spends_loop_uint64 (m : smanager) (ret : Op) (outputs : list UTXO) :
  forall total inputs,
    is_uint64 total -> is_uint64 (fst (Spends_loop m ret outputs total inputs)).
Proof.
  induction outputs as [|out outputs IH]; intros total inputs Ht; [exact Ht|].
  rewrite Spends_loop_cons.
  destruct (spend m out (Op_time ret)); [|now apply IH].
  destruct (target_exceeded ret _).
  - apply add64_uint64.
  - apply IH, add64_uint64.
Qed.

Lemma target_exceeded_zero (ret : Op) : target_exceeded ret 0 = false.
Proof.
  unfold target_exceeded.
  destruct (add64_uint64 (Op_targetAmount ret) (Op_feeDeduct ret)) as [Hb _].
  destruct (0 >? add64 _ _) eqn:E; [|apply andb_false_r].
  apply Z.gtb_lt in E. lia.
Qed.

Lemma target_exceeded_sweep (ret : Op) (total : Z) :
  Op_targetAmount ret = 0 -> target_exceeded ret total = false.
Proof. unfold target_exceeded. now intros ->. Qed.

Lemma sum_app (l1 l2 : list Z) : sum (l1 ++ l2) = sum l1 + sum l2.
Proof. induction l1; simpl; lia. Qed.

Lemma sum_Permutation (l1 l2 : list Z) : Permutation l1 l2 -> sum l1 = sum l2.
Proof. induction 1; simpl; lia. Qed.

Lemma amounts_Permutation (l1 l2 : list TransferableInput) :
  Permutation l1 l2 -> Permutation (amounts l1) (amounts l2).
Proof. apply Permutation_map. Qed.

Lemma sum_amounts_nonneg {XL : FxLaws} (l : list TransferableInput) :
  0 <= sum (amounts l).
Proof.
  induction l as [|i l IH]; simpl; [lia|].
  destruct (Amount_uint64 (In i)). lia.
Qed.

Lemma Spends_unfold (m : smanager) (outputs : list UTXO) (opts : list OpOption) :
  Spends m outputs opts =
  (fst (Spends_loop m (applyOpts Op_zero opts) outputs 0 []),
   SortTransferableInputs (snd (Spends_loop m (applyOpts Op_zero opts) outputs 0 []))).
Proof.
  unfold Spends. now destruct (Spends_loop _ _ _ _ _).
Qed.

Lemma uint64_zero : is_uint64 0.
Proof. unfold is_uint64, uint64_mod. lia. Qed.

Lemma Sort_nil {AL : AvaxLaws} : SortTransferableInputs [] = [].
Proof. apply Permutation_nil, Permutation_sym, Sort_Permutation. Qed.

(** The candidates the inputs of a prefix come from. *)
Lemma spendable_inputs_sources (m : smanager) (time : Z) (l : list UTXO) :
  exists chosen,
    sublist chosen l /\
    Forall2 (input_of m time) chosen (spendable_inputs m time l).
Proof.
  induction l as [|out l (chosen & Hs & Hf)].
  - exists []. split; constructor.
  - rewrite spendable_inputs_cons.
    destruct (spend m out time) as [input|e] eqn:E.
    + exists (out :: chosen). split; [now constructor|].
      constructor; auto. exists input. auto.
    + exists chosen. split; [now constructor|auto].
Qed.

Lemma sublist_firstn {T} (k : nat) (l : list T) : sublist (firstn k l) l.
Proof.
  assert (Hnil : forall l' : list T, sublist [] l')
    by (induction l'; constructor; auto).
  revert k; induction l as [|x l IH]; intros [|k]; simpl.
  - constructor.
  - constructor.
  - apply Hnil.
  - apply sublist_keep, IH.
Qed.

Lemma sublist_trans {T} (l1 l2 l3 : list T) :
  sublist l1 l2 -> sublist l2 l3 -> sublist l1 l3.
Proof.
  intros H12 H23; revert l1 H12.
  induction H23 as [|x l2 l3 H IH|x l2 l3 H IH]; intros l1 H12.
  - exact H12.
  - constructor. auto.
  - inversion H12; subst.
    + apply sublist_skip. auto.
    + apply sublist_keep. auto.
Qed.

Lemma sublist_length {T} (l1 l2 : list T) :
  sublist l1 l2 -> (length l1 <= length l2)%nat.
Proof. induction 1; simpl; lia. Qed.

End LoopFacts.

(** ** Claims on the selection *)

Section SelectionClaims.
Context {F : Formatting} {C : Crypto} {X : Fx} {XL : FxLaws}.
Context {A : Avax} {AL : AvaxLaws}.

(** C2, as the code has it.  Early stop.  The running total is the 64-bit
    accumulator of the loop and the bound is the 64-bit sum
    [targetAmount + feeDeduct], both taken modulo [2^64].  With
    [targetAmount > 0]: when the total over the candidates [pre] has not
    passed the bound and adding the amount of the next spendable candidate
    [out] passes it, [Spends] returns that total, the inputs of [pre]
    together with the input of [out], and the same result whatever
    follows [out].  Three spendable candidates of amount 10 with target 15
    and no fee give the total 20 and the inputs of the first two. *)
Theorem Spends_stops_at_excess (m : smanager) (opts : list OpOption) :
  let ret := applyOpts Op_zero opts in
  let bound := add64 (Op_targetAmount ret) (Op_feeDeduct ret) in
  (forall pre out post input,
      0 < Op_targetAmount ret ->
      fst (Spends m pre opts) <= bound ->
      spend m out (Op_time ret) = Ok input ->
      add64 (fst (Spends m pre opts)) (Amount input) > bound ->
      fst (Spends m (pre ++ out :: post) opts)
        = add64 (fst (Spends m pre opts)) (Amount input) /\
      Permutation (snd (Spends m (pre ++ out :: post) opts))
                  (mkInput out input :: snd (Spends m pre opts)) /\
      Spends m (pre ++ out :: post) opts = Spends m (pre ++ [out]) opts)
  /\
  (forall u1 u2 u3 i1 i2 i3,
      Op_targetAmount ret = 15 -> Op_feeDeduct ret = 0 ->
      spend m u1 (Op_time ret) = Ok i1 -> Amount i1 = 10 ->
      spend m u2 (Op_time ret) = Ok i2 -> Amount i2 = 10 ->
      spend m u3 (Op_time ret) = Ok i3 -> Amount i3 = 10 ->
      fst (Spends m [u1; u2; u3] opts) = 20 /\
      length (snd (Spends m [u1; u2; u3] opts)) = 2%nat /\
      Permutation (snd (Spends m [u1; u2; u3] opts))
                  [mkInput u1 i1; mkInput u2 i2]).
Proof.
  intros ret bound. split.
  - intros pre out post input Hta Hle Hs Hgt.
    rewrite !Spends_unfold in *. cbn [fst snd] in *. fold ret in Hle, Hgt |- *.
    assert (Hpre : target_exceeded ret (fst (Spends_loop m ret pre 0 [])) = false).
    { unfold target_exceeded. fold bound.
      destruct (fst (Spends_loop m ret pre 0 []) >? bound) eqn:E;
        [apply Z.gtb_lt in E; lia | apply andb_false_r]. }
    assert (Hexc : target_exceeded ret
                     (add64 (fst (Spends_loop m ret pre 0 [])) (Amount input)) = true).
    { unfold target_exceeded. fold bound. apply andb_true_iff.
      split; apply Z.gtb_lt; lia. }
    assert (Hone : forall rest,
               Spends_loop m ret (pre ++ out :: rest) 0 [] =
               (add64 (fst (Spends_loop m ret pre 0 [])) (Amount input),
                snd (Spends_loop m ret pre 0 []) ++ [mkInput out input])).
    { intros rest. rewrite (Spends_loop_app m ret pre (out :: rest) 0 [] Hpre).
      rewrite Spends_loop_cons, Hs, Hexc. reflexivity. }
    rewrite (Hone post), (Hone []). cbn [fst snd]. repeat split.
    rewrite Sort_Permutation, (Sort_Permutation (snd _)).
    apply Permutation_sym, Permutation_cons_append.
  - intros u1 u2 u3 i1 i2 i3 Hta Hfd H1 A1 H2 A2 H3 A3.
    rewrite Spends_unfold. fold ret.
    assert (E : Spends_loop m ret [u1; u2; u3] 0 [] =
                (20, [mkInput u1 i1; mkInput u2 i2])).
    { rewrite Spends_loop_cons, H1, A1.
      unfold target_exceeded at 1. rewrite Hta, Hfd.
      change ((15 >? 0) && (add64 0 10 >? add64 15 0)) with false. cbv iota.
      rewrite Spends_loop_cons, H2, A2.
      unfold target_exceeded at 1. rewrite Hta, Hfd.
      reflexivity. }
    rewrite E. cbn [fst snd]. split; [reflexivity|]. split.
    + rewrite (Permutation_length (Sort_Permutation _)). reflexivity.
    + apply Sort_Permutation.
Qed.

(** C4.  The inputs [Spends] returns are in the order of their UTXO
    identifiers, transaction id first and output index second, and that
    order does not depend on the order of selection: two selections of
    the same inputs, with pairwise distinct identifiers, are returned as
    the same list. *)
Theorem Spends_sorted (m : smanager) (opts : list OpOption) :
  (forall outputs,
      StronglySorted inputs_ordered (snd (Spends m outputs opts)))
  /\
  (forall outputs1 outputs2,
      let ret := applyOpts Op_zero opts in
      Permutation (snd (Spends_loop m ret outputs1 0 []))
                  (snd (Spends_loop m ret outputs2 0 [])) ->
      NoDup (map In_UTXOID (snd (Spends_loop m ret outputs1 0 []))) ->
      snd (Spends m outputs1 opts) = snd (Spends m outputs2 opts)).
Proof.
  split.
  - intros outputs. rewrite Spends_unfold. cbn [snd].
    apply Sorted_inputs_strongly, Sort_Sorted.
  - intros outputs1 outputs2 ret Hp Hnd.
    rewrite !Spends_unfold. cbn [snd]. fold ret.
    apply sorted_perm_unique.
    + eapply Permutation_NoDup; [|exact Hnd].
      apply Permutation_map, Permutation_sym, Sort_Permutation.
    + rewrite !Sort_Permutation. exact Hp.
    + apply Sorted_inputs_strongly, Sort_Sorted.
    + apply Sorted_inputs_strongly, Sort_Sorted.
Qed.

(** C5.  A candidate whose spend attempt fails changes nothing: the
    result is the one obtained without it, so it adds nothing to the
    total, leaves no input, and the candidates after it are processed as
    if it were not there. *)
Theorem Spends_skips_unspendable (m : smanager) (opts : list OpOption)
        (pre : list UTXO) (out : UTXO) (post : list UTXO) (e : error) :
  spend m out (Op_time (applyOpts Op_zero opts)) = Err e ->
  Spends m (pre ++ out :: post) opts = Spends m (pre ++ post) opts.
Proof.
  intros He. rewrite !Spends_unfold.
  now rewrite (Spends_loop_skip m _ pre out post e He).
Qed.

End SelectionClaims.

Section SelectionTotals.
Context {F : Formatting} {C : Crypto} {X : Fx} {XL : FxLaws}.
Context {A : Avax} {AL : AvaxLaws}.

(** C3, as the code has it.  With [targetAmount = 0] the whole list is
    processed: the inputs are those of all the spendable candidates and
    the total is the sum of their amounts modulo [2^64], which is the sum
    itself when the sum is below [2^64].  Whatever the options, an empty
    list, or a list with no spendable candidate, gives the total 0 and no
    input. *)
Theorem Spends_sweep (m : smanager) (opts : list OpOption) :
  let ret := applyOpts Op_zero opts in
  (forall outputs,
      Op_targetAmount ret = 0 ->
      let all := spendable_inputs m (Op_time ret) outputs in
      Spends m outputs opts =
        (sum (amounts all) mod uint64_mod, SortTransferableInputs all) /\
      Permutation (snd (Spends m outputs opts)) all /\
      (sum (amounts all) < uint64_mod ->
       fst (Spends m outputs opts) = sum (amounts all)))
  /\
  Spends m [] opts = (0, [])
  /\
  (forall outputs,
      spendable_inputs m (Op_time ret) outputs = [] ->
      Spends m outputs opts = (0, [])).
Proof.
  intros ret.
  assert (Hgen : forall outputs,
             target_exceeded ret (fst (Spends_loop m ret outputs 0 [])) = false ->
             Spends m outputs opts =
             (sum (amounts (spendable_inputs m (Op_time ret) outputs)) mod uint64_mod,
              SortTransferableInputs (spendable_inputs m (Op_time ret) outputs))).
  { intros outputs Hc. rewrite Spends_unfold. fold ret.
    destruct (Spends_loop_prefix m ret outputs 0 []) as (k & Hk & Hi & Ht & Hfull).
    specialize (Hfull Hc (target_exceeded_zero ret)). subst k.
    rewrite firstn_all in Hi, Ht. rewrite Z.add_0_l in Ht.
    rewrite Hi. simpl app. f_equal.
    rewrite <- Ht. symmetry. apply Z.mod_small.
    apply Spends_loop_uint64, uint64_zero. }
  split; [|split].
  - intros outputs Hta all.
    pose proof (Hgen outputs (target_exceeded_sweep ret _ Hta)) as E.
    fold all in E. rewrite E. cbn [fst snd]. repeat split.
    + apply Sort_Permutation.
    + intros Hlt. apply Z.mod_small. split; [apply sum_amounts_nonneg | exact Hlt].
  - rewrite Spends_unfold. cbn [Spends_loop fst snd]. now rewrite Sort_nil.
  - intros outputs Hnone.
    destruct (Spends_loop_prefix m ret outputs 0 []) as (k & Hk & Hi & Ht & _).
    assert (Hk0 : spendable_inputs m (Op_time ret) (firstn k outputs) = []).
    { rewrite <- (firstn_skipn k outputs), spendable_inputs_app in Hnone.
      now apply app_eq_nil in Hnone. }
    rewrite Hk0 in Hi, Ht. cbn [app amounts map sum fold_right] in Hi, Ht.
    rewrite Spends_unfold. fold ret. rewrite Hi, Sort_nil. f_equal.
    rewrite <- (Z.mod_small (fst (Spends_loop m ret outputs 0 [])) uint64_mod)
      by (apply Spends_loop_uint64, uint64_zero).
    rewrite Ht. reflexivity.
Qed.

(** C9, as the code has it.  The inputs [Spends] returns are the inputs of
    distinct candidates: they are, up to order, in one-to-one
    correspondence with a sublist of the candidates, each input carrying
    what [spend] returned for its candidate; and the total is the sum of
    the amounts of the returned inputs modulo [2^64]. *)
Theorem Spends_inputs_of_candidates (m : smanager) (outputs : list UTXO)
        (opts : list OpOption) :
  let time := Op_time (applyOpts Op_zero opts) in
  (exists chosen selected,
      sublist chosen outputs /\
      Forall2 (input_of m time) chosen selected /\
      Permutation (snd (Spends m outputs opts)) selected) /\
  (length (snd (Spends m outputs opts)) <= length outputs)%nat /\
  fst (Spends m outputs opts)
    = sum (amounts (snd (Spends m outputs opts))) mod uint64_mod /\
  (sum (amounts (snd (Spends m outputs opts))) < uint64_mod ->
   fst (Spends m outputs opts) = sum (amounts (snd (Spends m outputs opts)))).
Proof.
  intros time. rewrite Spends_unfold. cbn [fst snd].
  set (ret := applyOpts Op_zero opts) in *. subst time.
  destruct (Spends_loop_prefix m ret outputs 0 []) as (k & Hk & Hi & Ht & _).
  simpl app in Hi. rewrite Z.add_0_l in Ht.
  destruct (spendable_inputs_sources m (Op_time ret) (firstn k outputs))
    as (chosen & Hsub & Hf2).
  assert (Hsum : sum (amounts (SortTransferableInputs
                                 (snd (Spends_loop m ret outputs 0 []))))
                 = sum (amounts (spendable_inputs m (Op_time ret)
                                                  (firstn k outputs)))).
  { apply sum_Permutation, amounts_Permutation.
    rewrite Sort_Permutation, Hi. reflexivity. }
  assert (Htot : fst (Spends_loop m ret outputs 0 []) =
                 sum (amounts (SortTransferableInputs
                                 (snd (Spends_loop m ret outputs 0 []))))
                   mod uint64_mod).
  { rewrite Hsum, <- Ht. symmetry. apply Z.mod_small.
    apply Spends_loop_uint64, uint64_zero. }
  split; [|split; [|split]].
  - exists chosen, (spendable_inputs m (Op_time ret) (firstn k outputs)).
    split; [|split].
    + eapply sublist_trans; [exact Hsub | apply sublist_firstn].
    + exact Hf2.
    + rewrite Sort_Permutation, Hi. reflexivity.
  - rewrite (Permutation_length (Sort_Permutation _)), Hi.
    rewrite <- (Forall2_length Hf2).
    apply sublist_length.
    eapply sublist_trans; [exact Hsub | apply sublist_firstn].
  - exact Htot.
  - intros Hlt. rewrite Htot at 1. apply Z.mod_small.
    split; [apply sum_amounts_nonneg | exact Hlt].
Qed.

End SelectionTotals.

(** ** Loading a key file *)

Lemma readASCII_from_length (buf : bytes) :
  forall n r, length (snd (fst (readASCII_from n buf r))) = length buf.
Proof.
  induction buf as [|old buf IH]; intros n r; [reflexivity|].
  simpl. destruct r as [|b r]; simpl; [reflexivity|].
  destruct (byte_val b <? 33); simpl; [reflexivity|].
  specialize (IH (S n) r).
  destruct (readASCII_from (S n) buf r) as [[res filled] r'']. simpl in *.
  now rewrite IH.
Qed.

Lemma HasPrefix_first (c : byte) (s : gostring) :
  c <> "P"%char -> HasPrefix (c :: s) (str "PrivateKey-") = false.
Proof.
  intros Hc.
  change (HasPrefix (c :: s) (str "PrivateKey-"))
    with (byte_eqb "P"%char c && HasPrefix s (str "rivateKey-")).
  destruct (byte_eqb "P"%char c) eqn:E; [|reflexivity].
  apply byte_eqb_eq in E. congruence.
Qed.

Section Loading.
Context {F : Formatting} {FL : FormattingLaws}.
Context {C : Crypto} {CL : CryptoLaws}.
Context {X : Fx} {A : Avax}.

Lemma Load_fallback (networkID : Z) (keyPath : gostring) (kb : bytes)
      (fresh : result PrivateKey) (e : error) :
  New networkID keyPath [WithPrivateKeyEncoded kb] fresh = Err e ->
  Load networkID keyPath (Ok kb) fresh = Load_hex networkID keyPath kb fresh.
Proof. intros E. unfold Load, Load_hex. cbn [bind]. now rewrite E. Qed.

(** Contents that do not start with the prefix never load as an encoded
    key. *)
Lemma Load_unprefixed (networkID : Z) (keyPath : gostring) (kb : bytes)
      (fresh : result PrivateKey) :
  kb <> [] -> HasPrefix kb privKeyEncPfx = false ->
  Load networkID keyPath (Ok kb) fresh = Load_hex networkID keyPath kb fresh.
Proof.
  intros Hne Hp.
  destruct (New_encoded_unprefixed networkID keyPath
              [WithPrivateKeyEncoded kb] fresh Hne Hp) as (e & He).
  eapply Load_fallback; eauto.
Qed.

(** Nor do non-empty contents that are not the encoded form of any key. *)
Lemma Load_not_encoded (networkID : Z) (keyPath : gostring) (kb : bytes)
      (fresh : result PrivateKey) :
  kb <> [] -> (forall k, encodePrivateKey k <> Ok kb) ->
  Load networkID keyPath (Ok kb) fresh = Load_hex networkID keyPath kb fresh.
Proof.
  intros Hne Hno.
  destruct (New networkID keyPath [WithPrivateKeyEncoded kb] fresh)
    as [m|e] eqn:E; [exfalso | eapply Load_fallback; eauto].
  unfold New in E.
  cbn [applyOpts fold_left WithPrivateKeyEncoded Op_zero
       Op_privKeyEncoded Op_privKey] in E.
  destruct (length_pos_nonempty _ Hne) as [Hlen Hn]. rewrite Hlen in E.
  destruct (decodePrivateKey kb) as [d|e]; cbn [bind] in E; [|discriminate].
  destruct (encodePrivateKey d) as [enc|e] eqn:Ed; cbn [bind] in E;
    [|discriminate].
  rewrite Hn in E.
  destruct (bytes_Equal kb enc) eqn:Eq; cbn [negb andb] in E; [|discriminate].
  apply bytes_Equal_eq in Eq. subst enc. exact (Hno d Ed).
Qed.

Lemma Load_hex_short (networkID : Z) (keyPath : gostring) (kb : bytes)
      (fresh : result PrivateKey) :
  (forall pre rest, kb = pre ++ rest -> length pre = 64%nat ->
                    ~ Forall printable pre) ->
  Load_hex networkID keyPath kb fresh = Err ErrInvalidPrivateKeyLen.
Proof.
  intros Hno. unfold Load_hex, readASCII.
  pose proof (readASCII_from_count (repeat zero_byte privKeySize) 0 kb)
    as (He & _ & Hfull).
  pose proof (readASCII_from_length (repeat zero_byte privKeySize) 0 kb) as Hl.
  destruct (readASCII_from 0 (repeat zero_byte privKeySize) kb)
    as [[[n err] buf] r]. cbn [fst snd] in *. subst err.
  rewrite Hl, repeat_length in *. unfold privKeySize in *.
  destruct (n =? 64)%nat eqn:E; [|reflexivity].
  apply Nat.eqb_eq in E. exfalso.
  destruct (Hfull E) as (pre & rest & Hkb & Hlen & Hp).
  exact (Hno pre rest Hkb Hlen Hp).
Qed.

Lemma Load_hex_framed (networkID : Z) (keyPath : gostring)
      (body trailer : bytes) (fresh : result PrivateKey) :
  length body = 64%nat -> Forall printable body ->
  Load_hex networkID keyPath (body ++ trailer) fresh =
  match checkKeyFileEnd trailer with
  | Some e => Err e
  | None =>
      do skBytes <- hex_DecodeString body;
      do rpk <- ToPrivateKey skBytes;
      match as_SECP256K1R rpk with
      | None => Err ErrInvalidType
      | Some privKey => New networkID keyPath [WithPrivateKey privKey] fresh
      end
  end.
Proof.
  intros Hl Hp. unfold Load_hex, readASCII.
  rewrite readASCII_from_full by (rewrite ?repeat_length; auto).
  rewrite repeat_length, Hl. reflexivity.
Qed.

(** [New] with a raw key only. *)
Lemma New_raw_key (networkID : Z) (name : gostring)
      (k : PrivateKeySECP256K1R) (fresh : result PrivateKey) (a : gostring) :
  (length (Bytes k) <= 32)%nat ->
  FormatAddress (str "P") (getHRP networkID) (PublicKeyAddress k) = Ok a ->
  exists s,
    EncodeWithChecksum CB58 (Bytes k) = Ok s /\
    New networkID name [WithPrivateKey k] fresh =
    Ok {| hrp := getHRP networkID; privKey := k; privKeyRaw := Bytes k;
          privKeyEncoded := privKeyEncPfx ++ s; pAddr := a;
          keyChain := Keychain_Add NewKeychain k |}.
Proof.
  intros Hl Ha. destruct (EncodeWithChecksum_key (Bytes k) Hl) as (s & Hs).
  exists s. split; [exact Hs|].
  unfold New. cbn [applyOpts fold_left WithPrivateKey Op_zero
                   Op_privKeyEncoded Op_privKey length Nat.ltb Nat.leb bind].
  unfold encodePrivateKey. rewrite Hs. cbn [bind bytes_Equal negb andb].
  unfold updateAddr. cbn [hrp privKey]. rewrite Ha. reflexivity.
Qed.

End Loading.

(** ** Claims on key files *)

Section LoadClaims.
Context {F : Formatting} {FL : FormattingLaws}.
Context {C : Crypto} {CL : CryptoLaws}.
Context {X : Fx} {A : Avax}.

Lemma hex_file_unprefixed (body trailer : bytes) :
  length body = 64%nat -> Forall (fun c => isHexChar c = true) body ->
  body ++ trailer <> [] /\ HasPrefix (body ++ trailer) privKeyEncPfx = false.
Proof.
  intros Hl Hh. destruct body as [|c body]; [discriminate|].
  inversion Hh as [|? ? Hc _]; subst. split; [discriminate|].
  apply HasPrefix_first. now apply isHexChar_not_P.
Qed.

Lemma hex_printable (body : bytes) :
  Forall (fun c => isHexChar c = true) body -> Forall printable body.
Proof.
  intros Hh. eapply Forall_impl; [|exact Hh].
  intros c Hc. now apply isHexChar_printable.
Qed.

(** C6, as the code has it.  A file of 64 hex digits and a trailer.  The
    digits decode to 32 bytes.  With a trailer of at most two bytes, each
    a line feed or a carriage return, the file loads (the address
    formatter accepting the key's address) and the manager holds the
    decoded bytes.  With three such bytes at the start of the trailer,
    [Load] fails with [ErrInvalidPrivateKeyLen], whatever follows them.
    With another byte after at most two such bytes, [Load] fails with
    [ErrInvalidPrivateKeyEnding]. *)
Theorem Load_raw_hex_framing (networkID : Z) (keyPath : gostring)
        (body trailer : bytes) (fresh : result PrivateKey) :
  length body = 64%nat ->
  Forall (fun c => isHexChar c = true) body ->
  exists skBytes,
    hex_DecodeString body = Ok skBytes /\ length skBytes = 32%nat /\
    (Forall (fun b => isLineEnd b = true) trailer ->
     (length trailer <= 2)%nat ->
     (forall k, Bytes k = skBytes ->
        exists a, FormatAddress (str "P") (getHRP networkID)
                                (PublicKeyAddress k) = Ok a) ->
     exists mgr,
       Load networkID keyPath (Ok (body ++ trailer)) fresh = Ok mgr /\
       Raw mgr = skBytes)
    /\
    (forall ends rest,
        trailer = ends ++ rest -> length ends = 3%nat ->
        Forall (fun b => isLineEnd b = true) ends ->
        Load networkID keyPath (Ok (body ++ trailer)) fresh
        = Err ErrInvalidPrivateKeyLen)
    /\
    (forall ends c rest,
        trailer = ends ++ c :: rest -> (length ends <= 2)%nat ->
        Forall (fun b => isLineEnd b = true) ends ->
        isLineEnd c = false ->
        Load networkID keyPath (Ok (body ++ trailer)) fresh
        = Err ErrInvalidPrivateKeyEnding).
Proof.
  intros Hl Hh.
  destruct (hex_DecodeString_valid body Hh) as (skBytes & Hd & Hlen);
    [rewrite Hl; reflexivity|].
  assert (H32 : length skBytes = 32%nat) by lia.
  destruct (hex_file_unprefixed body trailer Hl Hh) as (Hne & Hp).
  pose proof (Load_unprefixed networkID keyPath _ fresh Hne Hp) as HL.
  rewrite (Load_hex_framed networkID keyPath body trailer fresh Hl
             (hex_printable body Hh)) in HL.
  exists skBytes. split; [exact Hd|]. split; [exact H32|]. split; [|split].
  - intros Ht Htl Hfmt.
    destruct (ToPrivateKey_32 skBytes H32) as (p & k & Hp' & Hk & Hb).
    destruct (Hfmt k Hb) as (a & Ha).
    destruct (New_raw_key networkID keyPath k fresh a) as (s & _ & HN);
      [rewrite Hb; lia | exact Ha |].
    eexists. rewrite HL. unfold checkKeyFileEnd.
    rewrite checkKeyFileEnd_from_newlines by (auto; lia).
    rewrite Hd. cbn [bind]. rewrite Hp'. cbn [bind]. rewrite Hk, HN.
    split; [reflexivity|]. exact Hb.
  - intros ends rest -> He3 Hends. rewrite HL.
    destruct ends as [|b1 [|b2 [|b3 [|b4 ends]]]]; try discriminate.
    inversion Hends as [|? ? E1 Hends1]; subst.
    inversion Hends1 as [|? ? E2 Hends2]; subst.
    inversion Hends2 as [|? ? E3 _]; subst.
    cbn [app checkKeyFileEnd checkKeyFileEnd_from].
    rewrite E1, E2, E3. reflexivity.
  - intros ends c rest -> He2 Hends Hc. rewrite HL.
    unfold checkKeyFileEnd.
    rewrite checkKeyFileEnd_from_other; auto.
Qed.


End LoadClaims.

(** * Further properties of the package *)

(** ** The readers *)

Lemma printableb_true (c : byte) : printableb c = true <-> printable c.
Proof.
  unfold printableb, printable. destruct (byte_val c <? 33) eqn:E; simpl.
  - apply Z.ltb_lt in E. split; [discriminate|lia].
  - apply Z.ltb_ge in E. tauto.
Qed.

(** X1.  The complete behaviour of [readASCII]: it never fails; the count is the
    length of the longest run of printable bytes at the head of the reader,
    capped at the length of the buffer; these bytes are copied to the head
    of the buffer, whose length does not change; when the scan stops early,
    the byte it stopped at is taken from the reader too, and the buffer
    cell after the copied bytes holds it (or zero at the end of input),
    the cells after that one keeping their contents. *)
Theorem readASCII_spec (buf : bytes) (r : reader) :
  let n := Nat.min (length buf) (length (takeWhile printableb r)) in
  readASCII buf r =
    ((n, None),
     firstn n r
       ++ (if (n <? length buf)%nat
           then nth n r zero_byte :: skipn (S n) buf
           else []),
     skipn (if (n <? length buf)%nat then S n else n) r).
Proof.
  unfold readASCII.
  assert (G : forall buf k r,
             readASCII_from k buf r =
             let n := Nat.min (length buf) (length (takeWhile printableb r)) in
             ((k + n, None)%nat,
              firstn n r
                ++ (if (n <? length buf)%nat
                    then nth n r zero_byte :: skipn (S n) buf
                    else []),
              skipn (if (n <? length buf)%nat then S n else n) r)).
  { clear. induction buf as [|old buf IH]; intros k r.
    - simpl. now rewrite Nat.add_0_r.
    - destruct r as [|b r].
      + simpl. now rewrite Nat.add_0_r.
      + cbn [readASCII_from ReadByte takeWhile].
        change (printableb b) with (negb (byte_val b <? 33)).
        destruct (byte_val b <? 33) eqn:E; cbn [negb].
        * simpl. now rewrite Nat.add_0_r.
        * rewrite IH. cbn [length Nat.min].
          set (n := Nat.min (length buf) (length (takeWhile printableb r))).
          cbv zeta.
          change (S n <? S (length buf))%nat with (n <? length buf)%nat.
          replace (k + S n)%nat with (S k + n)%nat by lia.
          destruct (n <? length buf)%nat; reflexivity. }
  cbv zeta. rewrite G. reflexivity.
Qed.

(** X2.  The complete behaviour of [checkKeyFileEnd]: it accepts exactly the
    trailers of at most two bytes, all line feeds or carriage returns; it
    reports [ErrInvalidPrivateKeyLen] exactly when the trailer starts with
    three such bytes, and [ErrInvalidPrivateKeyEnding] in all other cases. *)
Theorem checkKeyFileEnd_spec (r : reader) :
  (checkKeyFileEnd r = None <->
   (length r <= 2)%nat /\ Forall (fun b => isLineEnd b = true) r)
  /\
  (checkKeyFileEnd r = Some ErrInvalidPrivateKeyLen <->
   (3 <= length r)%nat /\ Forall (fun b => isLineEnd b = true) (firstn 3 r))
  /\
  (checkKeyFileEnd r = Some ErrInvalidPrivateKeyEnding <->
   Exists (fun b => isLineEnd b = false) (firstn 3 r)).
Proof.
  assert (HF : forall l, Forall (fun b => isLineEnd b = true) l
                         <-> forallb isLineEnd l = true).
  { intros l. rewrite Forall_forall, forallb_forall. tauto. }
  assert (HE : forall l, Exists (fun b => isLineEnd b = false) l
                         <-> existsb (fun b => negb (isLineEnd b)) l = true).
  { intros l. rewrite Exists_exists, existsb_exists.
    split; intros (x & Hx & Hf); exists x; split; auto.
    - now rewrite Hf.
    - now destruct (isLineEnd x). }
  rewrite !HF, HE. clear HF HE. unfold checkKeyFileEnd.
  destruct r as [|b1 [|b2 [|b3 r]]];
    cbn [checkKeyFileEnd_from firstn length forallb existsb];
    repeat match goal with
           | |- context [isLineEnd ?b] => destruct (isLineEnd b)
           end;
    cbn [negb fileEndLimit Nat.ltb Nat.leb andb orb];
    repeat split; intros; try reflexivity; try discriminate; try lia;
    intuition (try discriminate; try lia).
Qed.

(** ** The constructor *)

Section Constructor.
Context {F : Formatting} {FL : FormattingLaws}.
Context {C : Crypto} {CL : CryptoLaws}.
Context {X : Fx} {A : Avax}.

(** X3.  Every manager [New] returns is consistent: its prefix is the one of
    the network, its raw bytes are those of its key, its encoded form is
    the encoding of its key and decodes back to the raw bytes, its address
    is the formatted address of its key, and its keychain holds its key. *)
Theorem New_manager_consistent (networkID : Z) (name : gostring)
        (opts : list OpOption) (fresh : result PrivateKey) (m : smanager) :
  New networkID name opts fresh = Ok m ->
  hrp m = getHRP networkID /\
  Raw m = Bytes (Key m) /\
  encodePrivateKey (Key m) = Ok (Encode m) /\
  (exists k, decodePrivateKey (Encode m) = Ok k /\ Bytes k = Raw m) /\
  FormatAddress (str "P") (getHRP networkID) (PublicKeyAddress (Key m))
    = Ok (P m) /\
  keyChain m = Keychain_Add NewKeychain (Key m).
Proof.
  intros HN. apply New_Ok in HN as (Hh & Hr & He & Hk & Ha).
  unfold Raw, Key, Encode, P. repeat split; auto.
  pose proof He as He'. apply encodePrivateKey_Ok in He' as (s & Hs & Hs').
  destruct (decodePrivateKey_payload (privKey m) s Hs) as (k & _ & Hd & Hb).
  exists k. rewrite Hs', Hr. auto.
Qed.

(** X4.  The key generator matters only when the options carry no key: with a
    raw key or a non-empty encoded string the result does not depend on
    it; with neither, its error is returned, a key of another type gives
    [ErrInvalidType], and a manager that is returned holds the generated
    key. *)
Theorem New_generator (networkID : Z) (name : gostring) (opts : list OpOption) :
  let ret := applyOpts Op_zero opts in
  (Op_privKey ret <> None \/ Op_privKeyEncoded ret <> [] ->
   forall fresh fresh',
     New networkID name opts fresh = New networkID name opts fresh')
  /\
  (Op_privKey ret = None -> Op_privKeyEncoded ret = [] ->
   (forall e, New networkID name opts (Err e) = Err e) /\
   (forall p, as_SECP256K1R p = None ->
              New networkID name opts (Ok p) = Err ErrInvalidType) /\
   (forall p k m, as_SECP256K1R p = Some k ->
                  New networkID name opts (Ok p) = Ok m -> Key m = k)).
Proof.
  intros ret. split.
  - intros Hgiven fresh fresh'. unfold New. fold ret.
    destruct (0 <? length (Op_privKeyEncoded ret))%nat eqn:El.
    + destruct (decodePrivateKey (Op_privKeyEncoded ret)) as [d|e];
        cbn [bind]; [|reflexivity].
      destruct (Op_privKey ret) as [k|].
      * destruct (negb (bytes_Equal (Bytes k) (Bytes d))); reflexivity.
      * reflexivity.
    + destruct (Op_privKeyEncoded ret) as [|c enc] eqn:Ee; [|discriminate].
      destruct (Op_privKey ret) as [k|]; [reflexivity|].
      destruct Hgiven as [Hg|Hg]; congruence.
  - intros Hk He. unfold New. fold ret. rewrite Hk, He.
    cbn [length Nat.ltb Nat.leb bind]. repeat split.
    + intros p Hp. now rewrite Hp.
    + intros p k m Hp. rewrite Hp. cbn [bind].
      destruct (encodePrivateKey k) as [enc|e]; cbn [bind]; [|discriminate].
      cbn [bytes_Equal negb andb]. intros Hu.
      apply updateAddr_Ok in Hu as (_ & Hu & _). exact Hu.
Qed.

(** X5.  Keys with different bytes have different encodings. *)
Theorem encodePrivateKey_injective (k1 k2 : PrivateKeySECP256K1R) (enc : gostring) :
  encodePrivateKey k1 = Ok enc -> encodePrivateKey k2 = Ok enc ->
  Bytes k1 = Bytes k2.
Proof.
  intros H1 H2.
  apply encodePrivateKey_Ok in H1 as (s1 & E1 & ->).
  apply encodePrivateKey_Ok in H2 as (s2 & E2 & Hs).
  apply app_inv_head in Hs. subst s2.
  apply Decode_EncodeWithChecksum in E1, E2. congruence.
Qed.

(** X6.  A raw key given together with its own bare payload: the bytes agree,
    yet [New] fails, with [ErrInvalidPrivateKeyEncoding]. *)
Theorem New_raw_and_bare_payload (networkID : Z) (name : gostring)
        (opts : list OpOption) (fresh : result PrivateKey)
        (k : PrivateKeySECP256K1R) (payload : gostring) :
  EncodeWithChecksum CB58 (Bytes k) = Ok payload ->
  Op_privKey (applyOpts Op_zero opts) = Some k ->
  Op_privKeyEncoded (applyOpts Op_zero opts) = payload ->
  New networkID name opts fresh = Err ErrInvalidPrivateKeyEncoding.
Proof.
  intros Hs Hk He.
  destruct (decodePrivateKey_payload k payload Hs) as (k' & Hd & _ & Hb).
  pose proof (EncodeWithChecksum_nonempty _ _ Hs) as Hne.
  unfold New. rewrite Hk, He.
  destruct (length_pos_nonempty _ Hne) as [-> Hn].
  rewrite Hd. cbn [bind]. rewrite <- Hb, bytes_Equal_refl. cbn [negb bind].
  assert (Hk' : encodePrivateKey k' = Ok (privKeyEncPfx ++ payload))
    by (apply encodePrivateKey_Ok; exists payload; rewrite Hb; auto).
  rewrite Hk'. cbn [bind]. rewrite Hn.
  assert (Hx : bytes_Equal payload (privKeyEncPfx ++ payload) = false).
  { apply bytes_Equal_neq. intros E.
    apply (f_equal (@length ascii)) in E. rewrite length_app in E.
    simpl in E. lia. }
  rewrite Hx. reflexivity.
Qed.

(** [New] given only the encoding of a key. *)
Lemma New_encoded_only (networkID : Z) (name : gostring)
      (fresh : result PrivateKey) (k : PrivateKeySECP256K1R) (enc : gostring) :
  encodePrivateKey k = Ok enc ->
  (forall k', Bytes k' = Bytes k ->
     exists a, FormatAddress (str "P") (getHRP networkID)
                             (PublicKeyAddress k') = Ok a) ->
  exists m, New networkID name [WithPrivateKeyEncoded enc] fresh = Ok m /\
            Raw m = Bytes k /\ Encode m = enc.
Proof.
  intros Henc Hfmt. pose proof Henc as Henc'.
  apply encodePrivateKey_Ok in Henc' as (s & Hs & ->).
  destruct (decodePrivateKey_payload k s Hs) as (k' & _ & Hd & Hb).
  destruct (Hfmt k' Hb) as (a & Ha).
  unfold New. cbn [applyOpts fold_left WithPrivateKeyEncoded Op_zero
                   Op_privKeyEncoded Op_privKey].
  assert (Hne : privKeyEncPfx ++ s <> []) by discriminate.
  destruct (length_pos_nonempty _ Hne) as [-> _].
  rewrite Hd. cbn [bind].
  rewrite (encodePrivateKey_Bytes k' k Hb), Henc. cbn [bind].
  rewrite bytes_Equal_refl, andb_false_r.
  unfold updateAddr. cbn [hrp privKey]. rewrite Ha. cbn [bind].
  eexists. split; [reflexivity|]. split; [exact Hb|reflexivity].
Qed.

End Constructor.

(** ** Saving and loading *)

Section SaveLoad.
Context {F : Formatting} {FL : FormattingLaws}.
Context {C : Crypto} {CL : CryptoLaws}.
Context {X : Fx} {A : Avax}.

(** X7.  Round trip through a saved file.  [Save] writes, to the path it is
    given and with mode [0600], the 64 hex digits of a 32-byte key and
    nothing else; [Load] on these contents returns a manager with the same
    raw key and the same encoded form (the address formatter accepting the
    key's address on the network of the load). *)
Theorem Save_Load_roundtrip (networkID : Z) (name : gostring)
        (opts : list OpOption) (fresh : result PrivateKey) (m : smanager)
        (p : gostring) (networkID' : Z) (keyPath : gostring)
        (fresh' : result PrivateKey) :
  New networkID name opts fresh = Ok m ->
  length (Raw m) = 32%nat ->
  (forall k, Bytes k = Raw m ->
     exists a, FormatAddress (str "P") (getHRP networkID')
                             (PublicKeyAddress k) = Ok a) ->
  wf_path (Save m p) = p /\
  wf_perm (Save m p) = 384 /\
  length (wf_data (Save m p)) = 64%nat /\
  exists m',
    Load networkID' keyPath (Ok (wf_data (Save m p))) fresh' = Ok m' /\
    Raw m' = Raw m /\ Encode m' = Encode m.
Proof.
  intros HN Hl Hfmt. unfold Raw in *.
  cbn [Save wf_path wf_perm wf_data].
  assert (Hlen : length (hex_EncodeToString (privKeyRaw m)) = 64%nat)
    by (rewrite hex_EncodeToString_length; lia).
  repeat split; auto.
  pose proof (hex_EncodeToString_isHexChar (privKeyRaw m)) as Hh.
  destruct (hex_file_unprefixed _ [] Hlen Hh) as (Hne & Hp).
  rewrite app_nil_r in Hne, Hp.
  destruct (ToPrivateKey_32 _ Hl) as (pk & k & Hpk & Hk & Hb).
  destruct (Hfmt k Hb) as (a & Ha).
  destruct (New_raw_key networkID' keyPath k fresh' a) as (s & Hs & HN');
    [rewrite Hb; lia | exact Ha |].
  eexists.
  rewrite (Load_unprefixed networkID' keyPath _ fresh' Hne Hp).
  rewrite <- (app_nil_r (hex_EncodeToString (privKeyRaw m))).
  rewrite (Load_hex_framed networkID' keyPath _ [] fresh' Hlen
             (hex_printable _ Hh)).
  cbn [checkKeyFileEnd checkKeyFileEnd_from].
  rewrite hex_DecodeString_EncodeToString. cbn [bind].
  rewrite Hpk. cbn [bind]. rewrite Hk, HN'.
  split; [reflexivity|]. unfold Encode. cbn [privKeyRaw privKeyEncoded].
  split; [exact Hb|].
  apply New_Ok in HN as (_ & Hr & He & _).
  apply encodePrivateKey_Ok in He as (s' & Hs' & ->).
  rewrite Hb, Hr in Hs. congruence.
Qed.

(** X8.  Round trip through a file that holds the encoded form. *)
Theorem Load_encoded_file (networkID : Z) (name : gostring)
        (opts : list OpOption) (fresh : result PrivateKey) (m : smanager)
        (networkID' : Z) (keyPath : gostring) (fresh' : result PrivateKey) :
  New networkID name opts fresh = Ok m ->
  (forall k, Bytes k = Raw m ->
     exists a, FormatAddress (str "P") (getHRP networkID')
                             (PublicKeyAddress k) = Ok a) ->
  exists m',
    Load networkID' keyPath (Ok (Encode m)) fresh' = Ok m' /\
    Raw m' = Raw m /\ Encode m' = Encode m.
Proof.
  intros HN Hfmt.
  apply New_Ok in HN as (_ & Hr & He & _).
  destruct (New_encoded_only networkID' keyPath fresh' (privKey m)
              (privKeyEncoded m) He) as (m' & Hm' & Hraw & Henc).
  { intros k' Hk'. apply Hfmt. unfold Raw. congruence. }
  exists m'. unfold Load, Raw, Encode in *. cbn [bind]. rewrite Hm'.
  rewrite Hr. auto.
Qed.

End SaveLoad.

Section EmptyFile.
Context {F : Formatting} {C : Crypto} {X : Fx} {A : Avax}.

(** X9.  An empty key file is not rejected as such: [Load] returns the manager
    [New] builds without any option, that is for a freshly generated key.
    When that construction fails, the error reported is
    [ErrInvalidPrivateKeyLen], whatever the cause. *)
Theorem Load_empty_file (networkID : Z) (keyPath : gostring)
        (fresh : result PrivateKey) :
  Load networkID keyPath (Ok []) fresh =
  match New networkID keyPath [] fresh with
  | Ok m => Ok m
  | Err _ => Err ErrInvalidPrivateKeyLen
  end.
Proof.
  unfold Load. cbn [bind].
  change (New networkID keyPath [WithPrivateKeyEncoded []] fresh)
    with (New networkID keyPath [] fresh).
  destruct (New networkID keyPath [] fresh); reflexivity.
Qed.

End EmptyFile.

(** ** The selection, further *)

Section SelectionMore.
Context {F : Formatting} {C : Crypto} {X : Fx} {XL : FxLaws}.
Context {A : Avax} {AL : AvaxLaws}.

(** When the test of the loop has not fired by the end, all the spendable
    candidates have been selected. *)
Lemma Spends_not_exceeded (m : smanager) (outputs : list UTXO)
      (opts : list OpOption) :
  let ret := applyOpts Op_zero opts in
  target_exceeded ret (fst (Spends m outputs opts)) = false ->
  Spends m outputs opts =
  (sum (amounts (spendable_inputs m (Op_time ret) outputs)) mod uint64_mod,
   SortTransferableInputs (spendable_inputs m (Op_time ret) outputs)).
Proof.
  intros ret Hc. rewrite Spends_unfold in *. fold ret in Hc |- *.
  cbn [fst] in Hc.
  destruct (Spends_loop_prefix m ret outputs 0 []) as (k & Hk & Hi & Ht & Hfull).
  specialize (Hfull Hc (target_exceeded_zero ret)). subst k.
  rewrite firstn_all in Hi, Ht. rewrite Z.add_0_l in Ht.
  rewrite Hi. simpl app. f_equal.
  rewrite <- Ht. symmetry. apply Z.mod_small.
  apply Spends_loop_uint64, uint64_zero.
Qed.

(** X10.  The total is a [uint64], and [Spends] ends in one of two ways: with a
    total above the bound [targetAmount + feeDeduct] (and a positive
    target), or with every spendable candidate selected. *)
Theorem Spends_exceeds_or_takes_all (m : smanager) (outputs : list UTXO)
        (opts : list OpOption) :
  let ret := applyOpts Op_zero opts in
  is_uint64 (fst (Spends m outputs opts)) /\
  ((0 < Op_targetAmount ret /\
    fst (Spends m outputs opts) > add64 (Op_targetAmount ret) (Op_feeDeduct ret))
   \/
   Permutation (snd (Spends m outputs opts))
               (spendable_inputs m (Op_time ret) outputs)).
Proof.
  intros ret. split.
  - rewrite Spends_unfold. apply Spends_loop_uint64, uint64_zero.
  - destruct (target_exceeded ret (fst (Spends m outputs opts))) eqn:E.
    + left. unfold target_exceeded in E. apply andb_true_iff in E as [E1 E2].
      apply Z.gtb_lt in E1, E2. lia.
    + right. rewrite (Spends_not_exceeded m outputs opts E). cbn [snd].
      apply Sort_Permutation.
Qed.

(** X11.  With [targetAmount = 0] the result does not depend on the order of the
    candidates, as long as the spendable ones have distinct identifiers. *)
Theorem Spends_sweep_order_independent (m : smanager) (opts : list OpOption)
        (outputs1 outputs2 : list UTXO) :
  let ret := applyOpts Op_zero opts in
  Op_targetAmount ret = 0 ->
  Permutation outputs1 outputs2 ->
  NoDup (map In_UTXOID (spendable_inputs m (Op_time ret) outputs1)) ->
  Spends m outputs1 opts = Spends m outputs2 opts.
Proof.
  intros ret Hta Hp Hnd.
  rewrite (Spends_not_exceeded m outputs1 opts (target_exceeded_sweep ret _ Hta)).
  rewrite (Spends_not_exceeded m outputs2 opts (target_exceeded_sweep ret _ Hta)).
  fold ret.
  assert (Hsp : Permutation (spendable_inputs m (Op_time ret) outputs1)
                            (spendable_inputs m (Op_time ret) outputs2))
    by (unfold spendable_inputs; now apply Permutation_flat_map).
  f_equal.
  - f_equal. apply sum_Permutation, amounts_Permutation, Hsp.
  - apply sorted_perm_unique.
    + eapply Permutation_NoDup; [|exact Hnd].
      apply Permutation_map, Permutation_sym, Sort_Permutation.
    + rewrite !Sort_Permutation. exact Hsp.
    + apply Sorted_inputs_strongly, Sort_Sorted.
    + apply Sorted_inputs_strongly, Sort_Sorted.
Qed.

(** Where the loop stops: at a spendable candidate, after a run of
    candidates over which the test never fired. *)
Lemma Spends_loop_stop_point (m : smanager) (ret : Op) (outputs : list UTXO) :
  forall total inputs,
    is_uint64 total ->
    target_exceeded ret total = false ->
    target_exceeded ret (fst (Spends_loop m ret outputs total inputs)) = true ->
    exists pre out post input,
      outputs = pre ++ out :: post /\
      spend m out (Op_time ret) = Ok input /\
      snd (Spends_loop m ret outputs total inputs)
        = inputs ++ spendable_inputs m (Op_time ret) pre ++ [mkInput out input] /\
      fst (Spends_loop m ret outputs total inputs)
        = add64 ((total + sum (amounts (spendable_inputs m (Op_time ret) pre)))
                   mod uint64_mod) (Amount input) /\
      (forall p1 p2, pre = p1 ++ p2 ->
         target_exceeded ret
           ((total + sum (amounts (spendable_inputs m (Op_time ret) p1)))
              mod uint64_mod) = false).
Proof.
  induction outputs as [|out outputs IH]; intros total inputs Hu H0 Hc.
  - simpl in Hc. congruence.
  - assert (Hnil : (total + sum (amounts (spendable_inputs m (Op_time ret) [])))
                     mod uint64_mod = total).
    { change (spendable_inputs m (Op_time ret) []) with (@nil TransferableInput).
      cbn [amounts map sum fold_right]. rewrite Z.add_0_r.
      apply Z.mod_small. exact Hu. }
    rewrite Spends_loop_cons in *.
    destruct (spend m out (Op_time ret)) as [input|e] eqn:Hs.
    + destruct (target_exceeded ret (add64 total (Amount input))) eqn:E.
      * exists [], out, outputs, input. rewrite Hnil. cbn [fst snd app].
        repeat split; auto.
        intros p1 p2 Hp. symmetry in Hp. apply app_eq_nil in Hp as [-> _].
        now rewrite Hnil.
      * destruct (IH _ (inputs ++ [mkInput out input])
                     (add64_uint64 total (Amount input)) E Hc)
          as (pre & o & post & i & -> & Ho & Hsnd & Hfst & Hpre).
        exists (out :: pre), o, post, i.
        rewrite spendable_inputs_cons, Hs.
        split; [reflexivity|]. split; [exact Ho|]. split; [|split].
        -- rewrite Hsnd, <- app_assoc. reflexivity.
        -- rewrite Hfst. cbn [amounts map]. now rewrite add64_sum.
        -- intros [|x p1] p2 Hp; [now rewrite Hnil|].
           inversion Hp; subst. rewrite spendable_inputs_cons, Hs.
           cbn [amounts map]. rewrite <- add64_sum. now apply (Hpre p1 p2).
    + destruct (IH total inputs Hu H0 Hc)
        as (pre & o & post & i & -> & Ho & Hsnd & Hfst & Hpre).
      exists (out :: pre), o, post, i.
      rewrite spendable_inputs_cons, Hs.
      split; [reflexivity|]. split; [exact Ho|]. split; [exact Hsnd|].
      split; [exact Hfst|].
      intros [|x p1] p2 Hp; [now rewrite Hnil|].
      inversion Hp; subst. rewrite spendable_inputs_cons, Hs.
      now apply (Hpre p1 p2).
Qed.

(** X12.  [Spends] takes no more inputs than needed.  When it returns a
    total above the bound, the candidates split into [pre], the candidate
    [out] selected last and the candidates [post] left aside: the inputs
    returned are those of the spendable candidates of [pre] and the one of
    [out], the total is the total of [pre] (modulo [2^64]) plus the amount
    of [out], and the total over [pre], like the total over any shorter run
    of candidates, is not above the bound. *)
Theorem Spends_no_more_than_needed (m : smanager) (outputs : list UTXO)
        (opts : list OpOption) :
  let ret := applyOpts Op_zero opts in
  let total_of := fun l : list UTXO =>
    sum (amounts (spendable_inputs m (Op_time ret) l)) mod uint64_mod in
  target_exceeded ret (fst (Spends m outputs opts)) = true ->
  exists pre out post input,
    outputs = pre ++ out :: post /\
    spend m out (Op_time ret) = Ok input /\
    Permutation (snd (Spends m outputs opts))
                (mkInput out input :: spendable_inputs m (Op_time ret) pre) /\
    fst (Spends m outputs opts) = add64 (total_of pre) (Amount input) /\
    (forall p1 p2, pre = p1 ++ p2 -> target_exceeded ret (total_of p1) = false).
Proof.
  intros ret total_of Hc. rewrite Spends_unfold in *. fold ret in Hc |- *.
  cbn [fst snd] in *.
  destruct (Spends_loop_stop_point m ret outputs 0 [] uint64_zero
              (target_exceeded_zero ret) Hc)
    as (pre & out & post & input & Ho & Hs & Hsnd & Hfst & Hpre).
  exists pre, out, post, input.
  split; [exact Ho|]. split; [exact Hs|]. split; [|split].
  - rewrite Sort_Permutation, Hsnd. simpl app.
    apply Permutation_sym, Permutation_cons_append.
  - rewrite Hfst, Z.add_0_l. reflexivity.
  - intros p1 p2 Hp. specialize (Hpre p1 p2 Hp).
    now rewrite Z.add_0_l in Hpre.
Qed.

End SelectionMore.

(** ** Options *)

Section Options.
Context {C : Crypto}.

Lemma applyOpts_app (op : Op) (opts1 opts2 : list OpOption) :
  applyOpts op (opts1 ++ opts2) = applyOpts (applyOpts op opts1) opts2.
Proof. apply fold_left_app. Qed.

End Options.

Section SelectionOptions.
Context {F : Formatting} {C : Crypto} {X : Fx} {A : Avax}.

Lemma Spends_loop_fields (m : smanager) (ret ret' : Op) (outputs : list UTXO) :
  Op_time ret = Op_time ret' ->
  Op_targetAmount ret = Op_targetAmount ret' ->
  Op_feeDeduct ret = Op_feeDeduct ret' ->
  forall total inputs,
    Spends_loop m ret outputs total inputs = Spends_loop m ret' outputs total inputs.
Proof.
  intros Ht Hta Hfd.
  induction outputs as [|out outputs IH]; intros total inputs; [reflexivity|].
  rewrite !Spends_loop_cons. unfold target_exceeded.
  rewrite <- Ht, <- Hta, <- Hfd.
  destruct (spend m out (Op_time ret)); [|apply IH].
  destruct (_ && _); [reflexivity|apply IH].
Qed.

(** X13.  [Spends] reads the time, the target and the fee of its options and
    nothing else: a key option added to the options has no effect on it,
    the key used being always the one of the manager. *)
Theorem Spends_key_options_ignored (m : smanager) (outputs : list UTXO)
        (opts : list OpOption) (k : PrivateKeySECP256K1R) (enc : gostring) :
  Spends m outputs (opts ++ [WithPrivateKey k]) = Spends m outputs opts /\
  Spends m outputs (opts ++ [WithPrivateKeyEncoded enc]) = Spends m outputs opts.
Proof.
  rewrite !Spends_unfold. split.
  - now rewrite (Spends_loop_fields m (applyOpts Op_zero (opts ++ [WithPrivateKey k]))
                   (applyOpts Op_zero opts))
      by (rewrite applyOpts_app; reflexivity).
  - now rewrite (Spends_loop_fields m
                   (applyOpts Op_zero (opts ++ [WithPrivateKeyEncoded enc]))
                   (applyOpts Op_zero opts))
      by (rewrite applyOpts_app; reflexivity).
Qed.

End SelectionOptions.

(** ** What a successful construction or load tells *)

Lemma checkKeyFileEnd_None (r : reader) :
  checkKeyFileEnd r = None ->
  (length r <= 2)%nat /\ Forall (fun b => isLineEnd b = true) r.
Proof.
  unfold checkKeyFileEnd.
  destruct r as [|b1 [|b2 [|b3 r]]]; cbn [checkKeyFileEnd_from length].
  - intros _. split; [lia|constructor].
  - destruct (isLineEnd b1) eqn:E1; cbn [negb]; [|discriminate].
    intros _. split; [lia|repeat constructor; auto].
  - destruct (isLineEnd b1) eqn:E1; cbn [negb]; [|discriminate].
    cbn [fileEndLimit Nat.ltb Nat.leb].
    destruct (isLineEnd b2) eqn:E2; cbn [negb]; [|discriminate].
    intros _. split; [lia|repeat constructor; auto].
  - destruct (isLineEnd b1) eqn:E1; cbn [negb]; [|discriminate].
    cbn [fileEndLimit Nat.ltb Nat.leb].
    destruct (isLineEnd b2) eqn:E2; cbn [negb]; [|discriminate].
    cbn [fileEndLimit Nat.ltb Nat.leb].
    destruct (isLineEnd b3) eqn:E3; cbn [negb]; discriminate.
Qed.

Lemma hex_DecodeString_Ok (s : gostring) :
  forall b, hex_DecodeString s = Ok b ->
            Forall (fun c => isHexChar c = true) s /\
            (2 * length b = length s)%nat.
Proof.
  induction s as [| a | a c s IH] using list_ind2; intros b.
  - intros E; inversion E; subst. split; [constructor|reflexivity].
  - simpl. destruct (fromHexChar a); discriminate.
  - cbn [hex_DecodeString]. unfold isHexChar.
    destruct (fromHexChar a) as [va|] eqn:Ea; [|discriminate].
    destruct (fromHexChar c) as [vc|] eqn:Ec; [|discriminate].
    destruct (hex_DecodeString s) as [rest|e]; cbn [bind]; [|discriminate].
    intros E; inversion E; subst. destruct (IH rest eq_refl) as [Hf Hl].
    split.
    + constructor; [now rewrite Ea|]. constructor; [now rewrite Ec|exact Hf].
    + simpl. lia.
Qed.

Section Soundness.
Context {F : Formatting} {FL : FormattingLaws}.
Context {C : Crypto} {CL : CryptoLaws}.
Context {X : Fx} {A : Avax}.

(** X14.  What the options say about the manager [New] returns: a raw key given
    in the options is the key of the manager, byte for byte, and a
    non-empty encoded string given in the options is its encoded form,
    character for character. *)
Theorem New_respects_options (networkID : Z) (name : gostring)
        (opts : list OpOption) (fresh : result PrivateKey) (m : smanager) :
  New networkID name opts fresh = Ok m ->
  (forall k, Op_privKey (applyOpts Op_zero opts) = Some k -> Raw m = Bytes k) /\
  (Op_privKeyEncoded (applyOpts Op_zero opts) <> [] ->
   Encode m = Op_privKeyEncoded (applyOpts Op_zero opts)).
Proof.
  unfold New, Raw, Encode.
  set (ret := applyOpts Op_zero opts).
  destruct (0 <? length (Op_privKeyEncoded ret))%nat eqn:El.
  - destruct (decodePrivateKey (Op_privKeyEncoded ret)) as [d|e];
      cbn [bind]; [|discriminate].
    assert (Hne : bytes_Equal (Op_privKeyEncoded ret) [] = false)
      by (destruct (Op_privKeyEncoded ret); [discriminate|reflexivity]).
    destruct (Op_privKey ret) as [k0|] eqn:Ek.
    + destruct (bytes_Equal (Bytes k0) (Bytes d)) eqn:Eb;
        cbn [negb bind]; [|discriminate].
      apply bytes_Equal_eq in Eb.
      destruct (encodePrivateKey d) as [enc|e]; cbn [bind]; [|discriminate].
      rewrite Hne. cbn [negb andb].
      destruct (bytes_Equal (Op_privKeyEncoded ret) enc) eqn:Ee;
        cbn [negb]; [|discriminate].
      apply bytes_Equal_eq in Ee.
      intros Hu. apply updateAddr_Ok in Hu as (_ & Hk & Hr & He & _).
      cbn [privKey privKeyRaw privKeyEncoded] in *. split.
      * intros k Hk'. inversion Hk'; subst. congruence.
      * intros _. congruence.
    + cbn [bind].
      destruct (encodePrivateKey d) as [enc|e]; cbn [bind]; [|discriminate].
      rewrite Hne. cbn [negb andb].
      destruct (bytes_Equal (Op_privKeyEncoded ret) enc) eqn:Ee;
        cbn [negb]; [|discriminate].
      apply bytes_Equal_eq in Ee.
      intros Hu. apply updateAddr_Ok in Hu as (_ & Hk & Hr & He & _).
      cbn [privKey privKeyRaw privKeyEncoded] in *. split.
      * intros k Hk'. discriminate.
      * intros _. congruence.
  - destruct (Op_privKeyEncoded ret) as [|c enc0] eqn:Ee; [|discriminate].
    cbn [bind]. destruct (Op_privKey ret) as [k0|] eqn:Ek.
    + cbn [bind].
      destruct (encodePrivateKey k0) as [enc|e]; cbn [bind]; [|discriminate].
      cbn [bytes_Equal negb andb].
      intros Hu. apply updateAddr_Ok in Hu as (_ & Hk & Hr & He & _).
      cbn [privKey privKeyRaw privKeyEncoded] in *. split.
      * intros k Hk'. inversion Hk'; subst. congruence.
      * congruence.
    + split; [discriminate|congruence].
Qed.

(** X15.  [Load] accepts no malformed file.  When it succeeds on contents that
    are not empty and do not start with the prefix, the contents are 64 hex
    digits followed by at most two bytes, each a line feed or a carriage
    return, and the raw key of the manager is what the digits decode to. *)
Theorem Load_hex_sound (networkID : Z) (keyPath : gostring) (kb : bytes)
        (fresh : result PrivateKey) (m : smanager) :
  kb <> [] -> HasPrefix kb privKeyEncPfx = false ->
  Load networkID keyPath (Ok kb) fresh = Ok m ->
  exists body trailer,
    kb = body ++ trailer /\
    length body = 64%nat /\ Forall (fun c => isHexChar c = true) body /\
    (length trailer <= 2)%nat /\ Forall (fun b => isLineEnd b = true) trailer /\
    hex_DecodeString body = Ok (Raw m).
Proof.
  intros Hne Hp. rewrite (Load_unprefixed networkID keyPath kb fresh Hne Hp).
  intros HL.
  assert (Hfull : exists body trailer,
             kb = body ++ trailer /\ length body = 64%nat /\ Forall printable body).
  { unfold Load_hex, readASCII in HL.
    pose proof (readASCII_from_count (repeat zero_byte privKeySize) 0 kb)
      as (_ & _ & Hc).
    pose proof (readASCII_from_length (repeat zero_byte privKeySize) 0 kb) as Hl.
    destruct (readASCII_from 0 (repeat zero_byte privKeySize) kb)
      as [[[n err] buf] r]. cbn [fst snd] in *.
    destruct err; [discriminate|].
    rewrite Hl, repeat_length in *. unfold privKeySize in *.
    destruct (n =? 64)%nat eqn:E; [|discriminate].
    apply Nat.eqb_eq in E. exact (Hc E). }
  destruct Hfull as (body & trailer & -> & Hlen & Hpr).
  rewrite (Load_hex_framed networkID keyPath body trailer fresh Hlen Hpr) in HL.
  destruct (checkKeyFileEnd trailer) eqn:Hend; [discriminate|].
  apply checkKeyFileEnd_None in Hend as [Htl Htf].
  destruct (hex_DecodeString body) as [sk|e] eqn:Hd; cbn [bind] in HL;
    [|discriminate].
  destruct (hex_DecodeString_Ok body sk Hd) as [Hhex Hsk].
  exists body, trailer. repeat split; auto.
  destruct (ToPrivateKey_32 sk) as (p & k & Hpk & Hk & Hb); [lia|].
  rewrite Hpk in HL. cbn [bind] in HL. rewrite Hk in HL.
  unfold New in HL.
  cbn [applyOpts fold_left WithPrivateKey Op_zero Op_privKeyEncoded
       Op_privKey length Nat.ltb Nat.leb bind] in HL.
  destruct (encodePrivateKey k) as [enc|e]; cbn [bind] in HL; [|discriminate].
  cbn [bytes_Equal negb andb] in HL.
  apply updateAddr_Ok in HL as (_ & _ & Hr & _).
  unfold Raw. rewrite Hr. cbn [privKeyRaw]. now rewrite Hb.
Qed.

End Soundness.


(** ** An encoded key followed by a line end *)

Module CB58Files.
Import CB58 CB58Facts.

Lemma digits_from_length (base : Z) (fuel : nat) :
  2 <= base ->
  forall n x, 0 <= x < base ^ Z.of_nat n ->
              (length (digits_from fuel base x []) <= n)%nat.
Proof.
  intros Hb. induction fuel as [|fuel IH]; intros n x Hx; [simpl; lia|].
  destruct (Z.eq_dec x 0) as [->|Hn]; [simpl; lia|].
  rewrite digits_from_step by lia. rewrite length_app. cbn [length].
  destruct n as [|n]; [simpl in Hx; lia|].
  specialize (IH n (x / base) (div_lt_pow base Hb x n Hx)). lia.
Qed.

(** 36 bytes give at most 50 characters. *)
Lemma base58_Encode_length (b : bytes) :
  length b = 36%nat -> (length (base58_Encode b) <= 50)%nat.
Proof.
  intros Hl. unfold base58_Encode.
  destruct (leading_zeros_split b) as [Hsplit _].
  set (k := leading is_zero b) in *. set (b' := skipn k b) in *.
  assert (Hk : (k + length b' = 36)%nat).
  { pose proof (f_equal (@length ascii) Hsplit) as HL.
    rewrite length_app, repeat_length in HL. lia. }
  assert (Hx : 0 <= number 256 (map byte_val b) < 256 ^ Z.of_nat (length b')).
  { pose proof (number_zero_bytes k b') as Hnum. rewrite <- Hsplit in Hnum.
    rewrite Hnum, <- (length_map byte_val b').
    apply number_bounds; [lia|apply bytes_in_range]. }
  rewrite length_app, repeat_length, length_map.
  assert (Hpow : 256 ^ Z.of_nat (length b') <= 58 ^ Z.of_nat (50 - k)).
  { assert (H1 : 256 ^ Z.of_nat (length b') * 58 ^ Z.of_nat k <= 256 ^ 36).
    { replace 36 with (Z.of_nat (length b') + Z.of_nat k) by lia.
      rewrite Z.pow_add_r by lia.
      apply Z.mul_le_mono_nonneg_l; [apply Z.pow_nonneg; lia|].
      apply Z.pow_le_mono_l. lia. }
    assert (H2 : 256 ^ 36 <= 58 ^ 50) by (vm_compute; discriminate).
    assert (H3 : 58 ^ 50 = 58 ^ Z.of_nat (50 - k) * 58 ^ Z.of_nat k).
    { rewrite <- Z.pow_add_r by lia. f_equal. lia. }
    assert (H4 : 0 < 58 ^ Z.of_nat k) by (apply Z.pow_pos_nonneg; lia).
    nia. }
  pose proof (digits_from_length 58 (2 * length b) ltac:(lia) (50 - k)
                (number 256 (map byte_val b)) ltac:(lia)).
  lia.
Qed.

Lemma alphabet_printable (c : byte) : List.In c alphabet -> 49 <= byte_val c.
Proof.
  intros Hin. vm_compute in Hin.
  repeat (destruct Hin as [<-|Hin]; [vm_compute; discriminate|]).
  destruct Hin.
Qed.

Lemma index_from_In (c : byte) (l : gostring) :
  forall i d, index_from i c l = Some d -> List.In c l.
Proof.
  induction l as [|x l IH]; intros i d; [discriminate|].
  simpl. destruct (byte_eqb x c) eqn:E.
  - apply byte_eqb_eq in E. now left.
  - intros H. right. eapply IH; eauto.
Qed.

Lemma parse_stop (s1 : gostring) (c : byte) (s2 : gostring) :
  byte_val c < 49 -> parse (s1 ++ c :: s2) = None.
Proof.
  intros Hc. induction s1 as [|x s1 IH]; simpl.
  - destruct (char_digit c) as [d|] eqn:E; [|reflexivity].
    apply index_from_In, alphabet_printable in E. lia.
  - rewrite IH. now destruct (char_digit x).
Qed.

End CB58Files.

Section EncodedFiles.
Import Ref.
Context {C : Crypto} {X : Fx} {A : Avax}.

(** X16.  The encoded form does not bear a line end.  With the CB58
    encoding, contents made of the encoded form of a 32-byte key followed
    by a byte below ['!'] (a line feed, say) and anything else do not
    load: they fail to decode as an encoded key, and the fallback stops
    reading before 64 bytes, so that [Load] fails with
    [ErrInvalidPrivateKeyLen]. *)
Theorem Load_encoded_file_line_end (networkID : Z) (keyPath : gostring)
        (fresh : result PrivateKey) (k : PrivateKeySECP256K1R)
        (enc : gostring) (c : byte) (rest : bytes) :
  length (Bytes k) = 32%nat ->
  encodePrivateKey (F := formatting) k = Ok enc ->
  byte_val c < 33 ->
  Load (F := formatting) networkID keyPath (Ok (enc ++ c :: rest)) fresh
  = Err ErrInvalidPrivateKeyLen.
Proof.
  intros Hl He Hc. unfold encodePrivateKey in He.
  cbn [EncodeWithChecksum formatting] in He. unfold CB58.EncodeWithChecksum in He.
  destruct (CB58.maxCB58EncodeSize <? length (Bytes k))%nat; [discriminate|].
  cbn [bind] in He. inversion He; subst enc; clear He.
  set (payload := CB58.base58_Encode (Bytes k ++ CB58.Checksum (Bytes k))).
  assert (Hlen : (length payload <= 50)%nat).
  { apply CB58Files.base58_Encode_length.
    rewrite length_app, CB58Facts.Checksum_length. lia. }
  assert (Hnew : exists e,
             New (F := formatting) networkID keyPath
                 [WithPrivateKeyEncoded ((privKeyEncPfx ++ payload) ++ c :: rest)]
                 fresh = Err e).
  { unfold New.
    cbn [applyOpts fold_left WithPrivateKeyEncoded Op_zero
         Op_privKeyEncoded Op_privKey].
    assert (Hne : (privKeyEncPfx ++ payload) ++ c :: rest <> [])
      by discriminate.
    destruct (length_pos_nonempty _ Hne) as [-> _].
    unfold decodePrivateKey.
    rewrite <- app_assoc, Replace_prefix.
    cbn [Decode formatting]. unfold CB58.Decode.
    destruct (payload ++ c :: rest) as [|x s] eqn:Es;
      [destruct payload; discriminate|].
    rewrite <- Es. unfold CB58.base58_Decode.
    rewrite CB58Files.parse_stop by lia. cbn [bind]. eauto. }
  destruct Hnew as (e & Hnew).
  change (Load (F := formatting) networkID keyPath
               (Ok ((privKeyEncPfx ++ payload) ++ c :: rest)) fresh
          = Err ErrInvalidPrivateKeyLen).
  rewrite (Load_fallback networkID keyPath _ fresh e Hnew).
  apply Load_hex_short. intros pre rest' Hsplit Hpre Hp.
  assert (Hin : List.In c pre).
  { assert (Hn : nth_error ((privKeyEncPfx ++ payload) ++ c :: rest)
                           (length (privKeyEncPfx ++ payload)) = Some c).
    { rewrite nth_error_app2 by lia. now rewrite Nat.sub_diag. }
    rewrite Hsplit in Hn.
    rewrite nth_error_app1 in Hn.
    - eapply nth_error_In; eauto.
    - rewrite length_app, Hpre. simpl. lia. }
  rewrite Forall_forall in Hp. specialize (Hp c Hin).
  unfold printable in Hp. lia.
Qed.

End EncodedFiles.

Section ShortFiles.
Context {F : Formatting} {C : Crypto} {X : Fx} {A : Avax}.

(** X17.  A short file.  Contents of fewer than 64 bytes, not empty and
    not the encoded form of any key, make [Load] fail with
    [ErrInvalidPrivateKeyLen]. *)
Theorem Load_short_file (networkID : Z) (keyPath : gostring) (kb : bytes)
        (fresh : result PrivateKey) :
  kb <> [] -> (forall k, encodePrivateKey k <> Ok kb) ->
  (length kb < 64)%nat ->
  Load networkID keyPath (Ok kb) fresh = Err ErrInvalidPrivateKeyLen.
Proof.
  intros Hne Hno Hl. rewrite Load_not_encoded by assumption.
  apply Load_hex_short. intros pre rest -> Hp _.
  rewrite length_app in Hl. lia.
Qed.

End ShortFiles.

(** * The properties on concrete keys, files and UTXOs *)

Module Examples.
Import Ref RefLaws.

Definition key1 : PrivateKeySECP256K1R := repeat "A"%char 32.
Definition key2 : PrivateKeySECP256K1R := repeat "B"%char 32.

(** The checksummed payload of a key, and its encoded form. *)
Definition payload (k : bytes) : gostring :=
  CB58.base58_Encode (k ++ CB58.Checksum k).

Definition encoded (k : bytes) : gostring := privKeyEncPfx ++ payload k.

(** The manager [New] builds for the key [k] on the network [networkID]. *)
Definition manager_of (networkID : Z) (k : PrivateKeySECP256K1R) : smanager :=
  {| hrp := getHRP networkID; privKey := k; privKeyRaw := k;
     privKeyEncoded := encoded k;
     pAddr := str "P-" ++ getHRP networkID ++ str "1"
                ++ hex_EncodeToString (firstn 20 k);
     keyChain := [k] |}.

Definition manager1 : smanager := manager_of 1 key1.

(** A transfer output of [amt] owned by [key1], locked until [locktime]. *)
Definition utxo (tx : Z) (amt locktime : Z) : UTXO :=
  {| UTXO_UTXOID := {| TxID := [byte_of tx]; OutputIndex := 0 |};
     UTXO_Asset := {| AssetID := [] |};
     Out := TransferOutput amt locktime 1 [firstn 20 key1] |}.

Definition line_feed : byte := byte_of 10.
Definition carriage_return : byte := byte_of 13.
Definition hex_file : bytes := repeat "a"%char 64.
Definition no_key : result PrivateKey := Err (ErrExternal "no entropy").
End Examples.

Import Ref RefLaws Examples.

(** The round trip on [key1]. *)
Lemma encode_decode_roundtrip_witness :
  exists enc pk',
    encodePrivateKey key1 = Ok enc /\
    HasPrefix enc privKeyEncPfx = true /\
    decodePrivateKey enc = Ok pk' /\
    Bytes pk' = key1.
Proof. apply (encode_decode_roundtrip (F := formatting) (C := crypto) key1). reflexivity. Defined.

(** [key1] with the encoding of [key2], then with its own encoding. *)
Lemma New_raw_and_encoded_witness :
  New 1 [] [WithPrivateKey key1; WithPrivateKeyEncoded (encoded key2)] no_key
    = Err ErrInvalidPrivateKey
  /\
  exists m,
    New 1 [] [WithPrivateKey key1; WithPrivateKeyEncoded (encoded key1)] no_key
      = Ok m /\
    Raw m = key1 /\ Encode m = encoded key1.
Proof.
  split.
  - apply (proj1 (New_raw_and_encoded (F := formatting) (C := crypto) (X := fx) 1 []
                    [WithPrivateKey key1; WithPrivateKeyEncoded (encoded key2)]
                    no_key key1 (encoded key2) eq_refl eq_refl) key2).
    + discriminate.
    + reflexivity.
    + discriminate.
  - apply (proj2 (New_raw_and_encoded (F := formatting) (C := crypto) (X := fx) 1 []
                    [WithPrivateKey key1; WithPrivateKeyEncoded (encoded key1)]
                    no_key key1 (encoded key1) eq_refl eq_refl)).
    + reflexivity.
    + intros k' _. eexists. reflexivity.
Defined.

(** The bare payload of [key1]; its encoded form after another prefix, and
    after a letter: one prefix is removed, and the rest does not decode. *)
Lemma decodePrivateKey_prefix_optional_witness :
  decodePrivateKey (payload key1)
    = decodePrivateKey (encoded key1)
  /\
  decodePrivateKey (privKeyEncPfx ++ encoded key1)
    = Err (ErrExternal "invalid base58 digit")
  /\
  decodePrivateKey (str "x" ++ privKeyEncPfx ++ payload key1)
    = decodeRawPk (str "x" ++ payload key1)
  /\
  New 1 [] [WithPrivateKeyEncoded (payload key1)]
      no_key
    = Err ErrInvalidPrivateKeyEncoding.
Proof.
  destruct (decodePrivateKey_prefix_optional (F := formatting) (C := crypto) (X := fx))
    as (H1 & H2 & _ & H4 & _).
  split; [|split; [|split]].
  - destruct (H1 key1 _ eq_refl) as (pk' & E1 & E2 & _).
    exact (eq_trans E1 (eq_sym E2)).
  - refine (eq_trans (H2 [] (encoded key1) _) eq_refl).
    intros b1 a1 _. simpl. lia.
  - apply (H2 (str "x") (payload key1)).
    intros [|c b1] a1 E; [discriminate|simpl; lia].
  - apply (H4 1 [] no_key key1). reflexivity.
Defined.

(** Candidates of [2^63], [2^63] and 5 with the target [2^64 - 1]: the
    amounts of the first two add up to [2^64], above the target, yet the
    total wraps to 0 and the third candidate is selected too.  Candidates
    of 10 with the target [2^64 - 1] and the fee 2: the bound wraps to 1
    and the selection stops at the first candidate, with a total of 10. *)
Lemma Spends_excess_wraps :
  (0 < Op_targetAmount (applyOpts Op_zero [WithTargetAmount (2 ^ 64 - 1)]) /\
   sum (amounts (spendable_inputs manager1 0
                   [utxo 1 (2 ^ 63) 0; utxo 2 (2 ^ 63) 0]))
     > (2 ^ 64 - 1) + 0 /\
   Spends manager1 [utxo 1 (2 ^ 63) 0; utxo 2 (2 ^ 63) 0; utxo 3 5 0]
                   [WithTargetAmount (2 ^ 64 - 1)]
   = (5, [mkInput (utxo 1 (2 ^ 63) 0) (2 ^ 63, [0]);
          mkInput (utxo 2 (2 ^ 63) 0) (2 ^ 63, [0]);
          mkInput (utxo 3 5 0) (5, [0])]))
  /\
  (10 <= (2 ^ 64 - 1) + 2 /\
   Spends manager1 [utxo 1 10 0; utxo 2 10 0; utxo 3 10 0]
                   [WithTargetAmount (2 ^ 64 - 1); WithFeeDeduct 2]
   = (10, [mkInput (utxo 1 10 0) (10, [0])])).
Proof. vm_compute. repeat split; discriminate. Qed.

(** Three candidates of amount 10, target 15. *)
Lemma Spends_stops_at_excess_witness :
  fst (Spends manager1 ([utxo 1 10 0] ++ utxo 2 10 0 :: [utxo 3 10 0])
                       [WithTargetAmount 15]) = 20
  /\
  Spends manager1 ([utxo 1 10 0] ++ utxo 2 10 0 :: [utxo 3 10 0])
                  [WithTargetAmount 15]
  = Spends manager1 ([utxo 1 10 0] ++ [utxo 2 10 0]) [WithTargetAmount 15]
  /\
  length (snd (Spends manager1 [utxo 1 10 0; utxo 2 10 0; utxo 3 10 0]
                               [WithTargetAmount 15])) = 2%nat.
Proof.
  destruct (Spends_stops_at_excess manager1 [WithTargetAmount 15]) as [H1 H2].
  destruct (H1 [utxo 1 10 0] (utxo 2 10 0) [utxo 3 10 0] (10, [0]))
    as (Ht & _ & Hs).
  - reflexivity.
  - vm_compute. discriminate.
  - reflexivity.
  - reflexivity.
  - split; [exact Ht|]. split; [exact Hs|].
    apply (H2 (utxo 1 10 0) (utxo 2 10 0) (utxo 3 10 0)
              (10, [0]) (10, [0]) (10, [0])); reflexivity.
Defined.

(** Three candidates given in decreasing and in increasing order of
    identifier. *)
Lemma Spends_sorted_witness :
  StronglySorted inputs_ordered
    (snd (Spends manager1 [utxo 3 10 0; utxo 2 10 0; utxo 1 10 0] []))
  /\
  snd (Spends manager1 [utxo 3 10 0; utxo 2 10 0; utxo 1 10 0] [])
  = snd (Spends manager1 [utxo 1 10 0; utxo 2 10 0; utxo 3 10 0] []).
Proof.
  destruct (Spends_sorted manager1 []) as [H1 H2]. split.
  - apply H1.
  - apply H2.
    + apply Permutation_sym.
      exact (Permutation_rev
               [mkInput (utxo 1 10 0) (10, [0]); mkInput (utxo 2 10 0) (10, [0]);
                mkInput (utxo 3 10 0) (10, [0])]).
    + vm_compute. repeat constructor; simpl; intuition discriminate.
Defined.

(** A candidate locked until time 100, at time 50. *)
Lemma Spends_skips_unspendable_witness :
  Spends manager1 ([utxo 1 10 0] ++ utxo 2 10 100 :: [utxo 3 10 0]) [WithTime 50]
  = Spends manager1 ([utxo 1 10 0] ++ [utxo 3 10 0]) [WithTime 50].
Proof.
  apply (Spends_skips_unspendable manager1 [WithTime 50] [utxo 1 10 0]
           (utxo 2 10 100) [utxo 3 10 0]
           (ErrExternal "unable to spend this UTXO")).
  reflexivity.
Defined.

(** Two candidates of [2^63] each, swept: the total wraps to 0 while the
    amounts add up to [2^64]. *)
Lemma Spends_sweep_total_wraps :
  Op_targetAmount (applyOpts Op_zero []) = 0 /\
  length (spendable_inputs manager1 0 [utxo 1 (2 ^ 63) 0; utxo 2 (2 ^ 63) 0])
    = 2%nat /\
  fst (Spends manager1 [utxo 1 (2 ^ 63) 0; utxo 2 (2 ^ 63) 0] []) = 0 /\
  sum (amounts (spendable_inputs manager1 0
                  [utxo 1 (2 ^ 63) 0; utxo 2 (2 ^ 63) 0])) = 2 ^ 64.
Proof. vm_compute. repeat split. Qed.

(** A sweep of two spendable candidates around a locked one. *)
Lemma Spends_sweep_witness :
  Spends manager1 [utxo 2 7 0; utxo 3 5 100; utxo 1 4 0] [WithTime 50]
  = (11 mod uint64_mod,
     SortTransferableInputs
       [mkInput (utxo 2 7 0) (7, [0]); mkInput (utxo 1 4 0) (4, [0])])
  /\ fst (Spends manager1 [utxo 2 7 0; utxo 3 5 100; utxo 1 4 0] [WithTime 50])
     = 11
  /\ Spends manager1 [utxo 3 5 100] [WithTime 50] = (0, []).
Proof.
  destruct (Spends_sweep manager1 [WithTime 50]) as (H1 & _ & H3).
  destruct (H1 [utxo 2 7 0; utxo 3 5 100; utxo 1 4 0] eq_refl) as (E & _ & Hs).
  split; [exact E|]. split.
  - apply Hs. reflexivity.
  - apply H3. reflexivity.
Defined.

(** Two candidates of [2^64 - 1] and 2: the total returned is 1, the amounts
    of the two returned inputs add up to [2^64 + 1]. *)
Lemma Spends_total_not_sum :
  length (snd (Spends manager1 [utxo 1 (2 ^ 64 - 1) 0; utxo 2 2 0] [])) = 2%nat /\
  fst (Spends manager1 [utxo 1 (2 ^ 64 - 1) 0; utxo 2 2 0] []) = 1 /\
  sum (amounts (snd (Spends manager1 [utxo 1 (2 ^ 64 - 1) 0; utxo 2 2 0] [])))
    = 2 ^ 64 + 1.
Proof. vm_compute. repeat split. Qed.

Lemma Spends_inputs_of_candidates_witness :
  (length (snd (Spends manager1 [utxo 2 7 0; utxo 3 5 100; utxo 1 4 0]
                       [WithTime 50])) <= 3)%nat /\
  fst (Spends manager1 [utxo 2 7 0; utxo 3 5 100; utxo 1 4 0] [WithTime 50])
  = sum (amounts (snd (Spends manager1 [utxo 2 7 0; utxo 3 5 100; utxo 1 4 0]
                              [WithTime 50]))).
Proof.
  destruct (Spends_inputs_of_candidates manager1
              [utxo 2 7 0; utxo 3 5 100; utxo 1 4 0] [WithTime 50])
    as (_ & Hl & _ & Hs).
  split; [exact Hl|]. apply Hs. reflexivity.
Defined.

(** 64 hex digits, three line feeds and a letter: the error is the one of
    the third line feed, not the one of the letter. *)
Lemma Load_three_line_ends_then_letter :
  isLineEnd "X"%char = false /\
  Load 1 [] (Ok (hex_file ++ [line_feed; line_feed; line_feed; "X"%char])) no_key
  = Err ErrInvalidPrivateKeyLen.
Proof. vm_compute. split; reflexivity. Qed.

Lemma Load_raw_hex_framing_witness :
  (exists mgr,
      Load 1 [] (Ok (hex_file ++ [line_feed; carriage_return])) no_key = Ok mgr)
  /\ Load 1 [] (Ok (hex_file ++ [line_feed; line_feed; carriage_return])) no_key
     = Err ErrInvalidPrivateKeyLen
  /\ Load 1 [] (Ok (hex_file ++ [line_feed; "X"%char])) no_key
     = Err ErrInvalidPrivateKeyEnding.
Proof.
  split; [|split].
  - destruct (Load_raw_hex_framing (F := formatting) (C := crypto) (X := fx) 1 [] hex_file
                [line_feed; carriage_return] no_key eq_refl)
      as (sk & _ & _ & H1 & _).
    + repeat constructor.
    + destruct H1 as (mgr & Hm & _).
      * repeat constructor.
      * simpl. lia.
      * intros k _. eexists. reflexivity.
      * exists mgr. exact Hm.
  - destruct (Load_raw_hex_framing (F := formatting) (C := crypto) (X := fx) 1 [] hex_file
                [line_feed; line_feed; carriage_return] no_key eq_refl)
      as (sk & _ & _ & _ & H2 & _).
    + repeat constructor.
    + apply (H2 [line_feed; line_feed; carriage_return] []); try reflexivity.
      repeat constructor.
  - destruct (Load_raw_hex_framing (F := formatting) (C := crypto) (X := fx) 1 [] hex_file
                [line_feed; "X"%char] no_key eq_refl)
      as (sk & _ & _ & _ & _ & H3).
    + repeat constructor.
    + apply (H3 [line_feed] "X"%char []); try reflexivity.
      * simpl. lia.
      * repeat constructor.
Defined.



(** The manager built for [key1] on the main network. *)
Lemma New_manager1 : New 1 [] [WithPrivateKey key1] no_key = Ok manager1.
Proof. reflexivity. Qed.

Lemma New_manager_consistent_witness :
  hrp manager1 = constants.MainnetHRP /\
  Raw manager1 = key1 /\
  exists k, decodePrivateKey (Encode manager1) = Ok k /\ Bytes k = Raw manager1.
Proof.
  destruct (New_manager_consistent (F := formatting) (C := crypto) (X := fx)
              1 [] [WithPrivateKey key1] no_key manager1 eq_refl)
    as (Hh & Hr & _ & Hd & _).
  split; [exact Hh|]. split; [exact Hr|exact Hd].
Defined.

Lemma New_generator_witness :
  New 1 [] [WithPrivateKey key1] no_key = New 1 [] [WithPrivateKey key1] (Ok Foreign)
  /\ New 1 [] [] no_key = Err (ErrExternal "no entropy")
  /\ New 1 [] [] (Ok Foreign) = Err ErrInvalidType.
Proof.
  destruct (New_generator (F := formatting) (C := crypto) (X := fx)
              1 [] [WithPrivateKey key1]) as [H1 _].
  destruct (New_generator (F := formatting) (C := crypto) (X := fx) 1 [] [])
    as [_ H2].
  destruct (H2 eq_refl eq_refl) as (He & Hf & _).
  split; [|split].
  - apply H1. left. discriminate.
  - apply He.
  - apply Hf. reflexivity.
Defined.

Lemma encodePrivateKey_injective_witness : Bytes key1 = Bytes key1.
Proof.
  apply (encodePrivateKey_injective (F := formatting) (C := crypto)
           key1 key1 (encoded key1)); reflexivity.
Defined.

Lemma New_raw_and_bare_payload_witness :
  New 1 [] [WithPrivateKey key1;
            WithPrivateKeyEncoded (payload key1)]
      no_key
  = Err ErrInvalidPrivateKeyEncoding.
Proof.
  apply (New_raw_and_bare_payload (F := formatting) (C := crypto) (X := fx)
           1 [] _ no_key key1 (payload key1));
    reflexivity.
Defined.

Lemma Save_Load_roundtrip_witness :
  exists m',
    Load 5 [] (Ok (wf_data (Save manager1 (str "key.pk")))) no_key = Ok m' /\
    Raw m' = Raw manager1 /\ Encode m' = Encode manager1.
Proof.
  destruct (Save_Load_roundtrip (F := formatting) (C := crypto) (X := fx)
              1 [] [WithPrivateKey key1] no_key manager1 (str "key.pk")
              5 [] no_key eq_refl eq_refl) as (_ & _ & _ & H).
  - intros k _. eexists. reflexivity.
  - exact H.
Defined.

Lemma Load_encoded_file_witness :
  exists m',
    Load 5 [] (Ok (Encode manager1)) no_key = Ok m' /\
    Raw m' = Raw manager1 /\ Encode m' = Encode manager1.
Proof.
  apply (Load_encoded_file (F := formatting) (C := crypto) (X := fx)
           1 [] [WithPrivateKey key1] no_key manager1 5 [] no_key eq_refl).
  intros k _. eexists. reflexivity.
Defined.

Lemma Spends_exceeds_or_takes_all_witness :
  is_uint64 (fst (Spends manager1 [utxo 1 10 0; utxo 2 10 0; utxo 3 10 0]
                         [WithTargetAmount 15])).
Proof.
  apply (Spends_exceeds_or_takes_all manager1
           [utxo 1 10 0; utxo 2 10 0; utxo 3 10 0] [WithTargetAmount 15]).
Defined.

Lemma Spends_sweep_order_independent_witness :
  Spends manager1 [utxo 3 10 0; utxo 2 5 100; utxo 1 7 0] [WithTime 50]
  = Spends manager1 [utxo 1 7 0; utxo 2 5 100; utxo 3 10 0] [WithTime 50].
Proof.
  apply (Spends_sweep_order_independent manager1 [WithTime 50]).
  - reflexivity.
  - exact (Permutation_rev [utxo 3 10 0; utxo 2 5 100; utxo 1 7 0]).
  - repeat constructor; simpl; intuition discriminate.
Defined.

(** Candidates of 14, 2 and 7 with the target 15: the second is the one
    selected last. *)
Lemma Spends_no_more_than_needed_witness :
  exists pre out post input,
    [utxo 1 14 0; utxo 2 2 0; utxo 3 7 0] = pre ++ out :: post /\
    spend manager1 out 0 = Ok input /\
    Permutation (snd (Spends manager1 [utxo 1 14 0; utxo 2 2 0; utxo 3 7 0]
                             [WithTargetAmount 15]))
                (mkInput out input :: spendable_inputs manager1 0 pre) /\
    fst (Spends manager1 [utxo 1 14 0; utxo 2 2 0; utxo 3 7 0]
                [WithTargetAmount 15])
      = add64 (sum (amounts (spendable_inputs manager1 0 pre)) mod uint64_mod)
              (Amount input) /\
    (forall p1 p2, pre = p1 ++ p2 ->
       target_exceeded (applyOpts Op_zero [WithTargetAmount 15])
         (sum (amounts (spendable_inputs manager1 0 p1)) mod uint64_mod)
       = false).
Proof.
  apply (Spends_no_more_than_needed manager1
           [utxo 1 14 0; utxo 2 2 0; utxo 3 7 0] [WithTargetAmount 15]).
  reflexivity.
Defined.

Lemma New_respects_options_witness :
  Raw manager1 = Bytes key1 /\ Encode manager1 = encoded key1.
Proof.
  destruct (New_respects_options (F := formatting) (C := crypto) (X := fx)
              1 [] [WithPrivateKey key1; WithPrivateKeyEncoded (encoded key1)]
              no_key manager1 eq_refl) as [H1 H2].
  split.
  - apply H1. reflexivity.
  - apply H2. discriminate.
Defined.

Lemma Load_hex_sound_witness :
  exists body trailer,
    hex_file ++ [line_feed] = body ++ trailer /\
    length body = 64%nat /\ Forall (fun c => isHexChar c = true) body /\
    (length trailer <= 2)%nat /\ Forall (fun b => isLineEnd b = true) trailer /\
    hex_DecodeString body = Ok (repeat (byte_of 170) 32).
Proof.
  apply (Load_hex_sound (F := formatting) (C := crypto) (X := fx)
           1 [] (hex_file ++ [line_feed]) no_key
           (manager_of 1 (repeat (byte_of 170) 32))).
  - discriminate.
  - reflexivity.
  - reflexivity.
Defined.

(** The encoded form of [key1] and a line feed. *)
Lemma Load_encoded_file_line_end_witness :
  Load 5 [] (Ok (encoded key1 ++ [line_feed])) no_key
  = Err ErrInvalidPrivateKeyLen.
Proof.
  apply (Load_encoded_file_line_end (C := crypto) (X := fx) 5 [] no_key key1
           (encoded key1) line_feed [] eq_refl eq_refl eq_refl).
Defined.

(** 63 zeros. *)
Lemma Load_short_file_witness :
  Load 1 [] (Ok (repeat "0"%char 63)) no_key = Err ErrInvalidPrivateKeyLen.
Proof.
  apply (Load_short_file (F := formatting) (C := crypto) (X := fx) 1 []
           (repeat "0"%char 63) no_key).
  - discriminate.
  - intros k. apply (encodePrivateKey_first k "0"%char (repeat "0"%char 62)).
    discriminate.
  - simpl. lia.
Defined.

(** The key the package exports as [EwoqPrivateKey] is a well-formed
    encoded key: it decodes, to the bytes written here in hexadecimal, and
    the decoded key encodes back to it. *)
Lemma EwoqPrivateKey_decodes :
  (do k <- decodePrivateKey EwoqPrivateKey; Ok (hex_EncodeToString (Bytes k)))
  = Ok (str "56289e99c94b6912bfc12adc093c9b51124f0dc54ac7a766b2bc5ccf558d8027")
  /\
  (do k <- decodePrivateKey EwoqPrivateKey; encodePrivateKey k)
  = Ok EwoqPrivateKey.
Proof. vm_compute. split; reflexivity. Qed.
